(** * One-pass variance accumulation (libertem/udf/stddev.py)

    A shallow embedding of [merge], [_validate_n], [StdDevUDF.merge],
    [StdDevUDF.process_tile] and [consolidate_result], and the properties of
    the streaming variance computation built from them.

    Numbers.  The buffers are float32 arrays; the properties below are the
    exact-arithmetic ones, so a finite array element is a canonical rational
    ([Qc]).  An array divided by the integer 0 does not raise in numpy: it
    yields [inf] or [nan].  Such a non-finite element is [None]; every
    operation the program applies to a non-finite element ([+], [-], [*],
    multiplication or division by an integer count, [sqrt]) is non-finite
    again, so [None] is absorbing.  Counts are Python integers ([Z]). *)

From Stdlib Require Import ZArith List Bool Lia Permutation.
From Stdlib Require Import QArith Qcanon.
Import ListNotations.

Local Open Scope Z_scope.

(** ** Array elements *)

Definition elem : Type := option Qc.

Definition Z2Qc (n : Z) : Qc := Q2Qc (inject_Z n).

Definition lift2 (f : Qc -> Qc -> Qc) (x y : elem) : elem :=
  match x, y with
  | Some a, Some b => Some (f a b)
  | _, _ => None
  end.

Definition eadd : elem -> elem -> elem := lift2 Qcplus.
Definition esub : elem -> elem -> elem := lift2 Qcminus.
Definition emul : elem -> elem -> elem := lift2 Qcmult.

(** [n * x] for an integer count [n]. *)
Definition escale (n : Z) (x : elem) : elem :=
  option_map (Qcmult (Z2Qc n)) x.

(** [x / n] for an integer count [n]: true division, non-finite when [n = 0]. *)
Definition ediv (x : elem) (n : Z) : elem :=
  if n =? 0 then None else option_map (fun q => (q / Z2Qc n)%Qc) x.

Definition elem_eqb (x y : elem) : bool :=
  match x, y with
  | Some a, Some b => Qc_eq_bool a b
  | None, None => true
  | _, _ => false
  end.

(** ** Arrays: the signal axes flattened, operations elementwise *)

Definition array : Type := list elem.

Fixpoint map2 {A B C : Type} (f : A -> B -> C) (a : list A) (b : list B) : list C :=
  match a, b with
  | x :: a', y :: b' => f x y :: map2 f a' b'
  | _, _ => []
  end.

Definition vadd : array -> array -> array := map2 eadd.
Definition vsub : array -> array -> array := map2 esub.
Definition vmul : array -> array -> array := map2 emul.
Definition vscale (n : Z) (a : array) : array := map (escale n) a.
Definition vdiv (a : array) (n : Z) : array := map (fun x => ediv x n) a.

Definition zeros (n : nat) : array := repeat (Some 0%Qc) n.

Definition fin (a : list Qc) : array := map Some a.

Fixpoint array_eqb (a b : array) : bool :=
  match a, b with
  | [], [] => true
  | x :: a', y :: b' => elem_eqb x y && array_eqb a' b'
  | _, _ => false
  end.

Declare Scope arr_scope.
Delimit Scope arr_scope with arr.
Infix "+" := vadd : arr_scope.
Infix "-" := vsub : arr_scope.
Infix "*" := vmul : arr_scope.

(** ** The pairwise merge *)

Record VariancePart : Type := mkVariancePart {
  var : array;
  sum_im : array;
  N : Z
}.

Definition merge (p0 p1 : VariancePart) : VariancePart :=
  if N p0 =? 0 then p1 else
  let N' := N p0 + N p1 in
  let mean_A := vdiv (sum_im p0) (N p0) in
  let mean_B := vdiv (sum_im p1) (N p1) in
  let delta := (mean_B - mean_A)%arr in
  let mean := (mean_A + vdiv (vscale (N p1) delta) (N p0 + N p1))%arr in
  let sum_im_AB := (sum_im p0 + sum_im p1)%arr in
  let delta_P := (mean_B - mean)%arr in
  let var_AB := (var p0 + var p1 + vscale (N p1) delta * delta_P)%arr in
  mkVariancePart var_AB sum_im_AB N'.

(** ** Exceptions *)

(** The only exception the program raises itself is the failed [assert] of
    [_validate_n]: the inconsistent-count error. *)
Inductive exn : Type := AssertionError.

Inductive result (T : Type) : Type :=
| Return (x : T)
| Raise (e : exn).
Arguments Return {T} x.
Arguments Raise {T} e.

Definition bind {T U : Type} (m : result T) (k : T -> result U) : result U :=
  match m with
  | Return x => k x
  | Raise e => Raise e
  end.

Notation "x <- m ;; k" := (bind m (fun x => k))
  (at level 61, m at next level, right associativity).

(** ** Python dictionaries: insertion-ordered, keys unique *)

Section Dict.
Context {K : Type} (K_eq_dec : forall a b : K, {a = b} + {a <> b}).

Definition dict : Type := list (K * Z).

Fixpoint dict_get (d : dict) (k : K) : option Z :=
  match d with
  | [] => None
  | (k', v) :: d' => if K_eq_dec k k' then Some v else dict_get d' k
  end.

Definition dict_mem (k : K) (d : dict) : bool :=
  match dict_get d k with Some _ => true | None => false end.

(** [d[k] = v]: an existing key keeps its position, a new key goes last. *)
Fixpoint dict_set (k : K) (v : Z) (d : dict) : dict :=
  match d with
  | [] => [(k, v)]
  | (k', v') :: d' =>
      if K_eq_dec k k' then (k', v) :: d' else (k', v') :: dict_set k v d'
  end.

Definition dict_keys (d : dict) : list K := map fst d.
Definition dict_values (d : dict) : list Z := map snd d.
End Dict.
Arguments dict K : clear implicits.

(** Helper that makes sure the frame count is consistent at the merge stage. *)
Definition _validate_n {K : Type} (num_frame : dict K) : result Z :=
  match dict_values num_frame with
  | [] => Return 0
  | (v0 :: _) as values =>
      if forallb (Z.eqb v0) values then Return v0 else Raise AssertionError
  end.

(** ** Tiles and the numpy reductions over the frame axis *)

(** A tile has shape [(frames, *sig)]; the signal axes are flattened to
    [sig_size] elements. *)
Record Tile : Type := mkTile {
  sig_size : nat;
  frames : list array
}.

Definition shape0 (t : Tile) : Z := Z.of_nat (length (frames t)).

(** [a.sum(axis=0)] for [a] of shape [(len rows, n)]. *)
Definition sum_axis0 (n : nat) (rows : list array) : array :=
  fold_right vadd (zeros n) rows.

(** [np.var(tile, axis=0, ddof=ddof)]: the mean over the frame axis, the
    squared deviations from it, their sum, divided by [max(frames - ddof, 0)]. *)
Definition np_var (t : Tile) (ddof : Z) : array :=
  let rcount := shape0 t in
  let arrmean := vdiv (sum_axis0 (sig_size t) (frames t)) rcount in
  let x := map (fun fr => (fr - arrmean)%arr) (frames t) in
  let x := map (fun d => (d * d)%arr) x in
  let ret := sum_axis0 (sig_size t) x in
  vdiv ret (Z.max (rcount - ddof) 0).

(** ** The UDF: result buffers, tile update, partition merge *)

Record Results (K : Type) : Type := mkResults {
  res_var : array;
  res_sum_frame : array;
  res_num_frame : dict K
}.
Arguments mkResults {K} _ _ _.
Arguments res_var {K} _.
Arguments res_sum_frame {K} _.
Arguments res_num_frame {K} _.

Module StdDevUDF.
Section WithKey.
(** The region key is [self.meta.slice.discard_nav()], a hashable value of
    the host's slice type; the buffers [self.results.var] and
    [self.results.sum_frame] are the host's views for that region. *)
Context {K : Type} (K_eq_dec : forall a b : K, {a = b} + {a <> b}).

(** [get_result_buffers]: the host allocates [var] and [sum_frame] with the
    signal shape, zeroed, and one slot for the count dictionary. *)
Definition get_result_buffers (sig : nat) : Results K :=
  mkResults (zeros sig) (zeros sig) [].

(** [self.results.num_frame[:] = dict()]. *)
Definition preprocess (results : Results K) : Results K :=
  mkResults (res_var results) (res_sum_frame results) [].

Definition process_tile (key : K) (tile : Tile) (results : Results K) : Results K :=
  let num_frame :=
    if dict_mem K_eq_dec key (res_num_frame results)
    then res_num_frame results
    else dict_set K_eq_dec key 0 (res_num_frame results) in
  let tile_sum := sum_axis0 (sig_size tile) (frames tile) in
  let p0 := mkVariancePart (res_var results) (res_sum_frame results)
              (match dict_get K_eq_dec num_frame key with
               | Some n => n
               | None => 0
               end) in
  let p1 := mkVariancePart (np_var tile (shape0 tile - 1)) tile_sum (shape0 tile) in
  let compute_merge := merge p0 p1 in
  mkResults (var compute_merge) (sum_im compute_merge)
    (dict_set K_eq_dec key (N compute_merge) num_frame).

Definition merge (dest src : Results K) : result (Results K) :=
  N0 <- _validate_n (res_num_frame dest) ;;
  N1 <- _validate_n (res_num_frame src) ;;
  let p0 := mkVariancePart (res_var dest) (res_sum_frame dest) N0 in
  let p1 := mkVariancePart (res_var src) (res_sum_frame src) N1 in
  let compute_merge := merge p0 p1 in
  Return (mkResults (var compute_merge) (sum_im compute_merge)
            (fold_left (fun d key => dict_set K_eq_dec key (N compute_merge) d)
               (dict_keys (res_num_frame src)) (res_num_frame dest))).
End WithKey.
End StdDevUDF.

(** The buffers before the first tile. *)
Definition fresh {K : Type} (sig : nat) : Results K :=
  StdDevUDF.preprocess (StdDevUDF.get_result_buffers sig).

(** ** Finalization *)

Record Consolidated : Type := mkConsolidated {
  out_var : array;
  out_std : array;
  out_mean : array;
  out_num_frame : Z;
  out_sum_frame : array
}.

Section Consolidate.
(** [np.sqrt] on a finite element is left to the host's numerics; on a
    non-finite element it is non-finite. *)
Variable sqrt_fin : Qc -> elem.

Definition np_sqrt (a : array) : array :=
  map (fun x => match x with Some v => sqrt_fin v | None => None end) a.

Definition consolidate_result {K : Type} (udf_result : Results K) : result Consolidated :=
  num_frame <- _validate_n (res_num_frame udf_result) ;;
  let var' := vdiv (res_var udf_result) num_frame in
  let std := np_sqrt var' in
  let mean := vdiv (res_sum_frame udf_result) num_frame in
  Return (mkConsolidated var' std mean num_frame (res_sum_frame udf_result)).
End Consolidate.

(** ** Specification side *)

(** The tile's own mean and the raw sum of squared deviations from it. *)
Definition tile_mean (t : Tile) : array :=
  vdiv (sum_axis0 (sig_size t) (frames t)) (shape0 t).

Definition sum_sq_dev (t : Tile) : array :=
  sum_axis0 (sig_size t)
    (map (fun fr => ((fr - tile_mean t) * (fr - tile_mean t))%arr) (frames t)).

(** The count stored for [key], 0 when the key was never seen. *)
Definition stored_count {K : Type} (K_eq_dec : forall a b : K, {a = b} + {a <> b})
    (key : K) (results : Results K) : Z :=
  match dict_get K_eq_dec (res_num_frame results) key with
  | Some n => n
  | None => 0
  end.

(** The tile's local contribution, and the running accumulator of a key. *)
Definition local_accumulator (t : Tile) : VariancePart :=
  mkVariancePart (sum_sq_dev t) (sum_axis0 (sig_size t) (frames t)) (shape0 t).

Definition running_accumulator {K : Type}
    (K_eq_dec : forall a b : K, {a = b} + {a <> b})
    (key : K) (results : Results K) : VariancePart :=
  mkVariancePart (res_var results) (res_sum_frame results)
    (stored_count K_eq_dec key results).

(** The dictionary after step 1 of the tile update: [key] is present. *)
Definition seen {K : Type} (K_eq_dec : forall a b : K, {a = b} + {a <> b})
    (key : K) (d : dict K) : dict K :=
  if dict_mem K_eq_dec key d then d else dict_set K_eq_dec key 0 d.

(** The merge formula on one array element. *)
Definition evar (vA sA : elem) (nA : Z) (vB sB : elem) (nB : Z) : elem :=
  let mean_A := ediv sA nA in
  let mean_B := ediv sB nB in
  let delta := esub mean_B mean_A in
  let mean := eadd mean_A (ediv (escale nB delta) (nA + nB)) in
  let delta_P := esub mean_B mean in
  eadd (eadd vA vB) (emul (escale nB delta) delta_P).

Definition esum (xs : list elem) : elem := fold_right eadd (Some 0%Qc) xs.

(** An array given by its elements. *)
Definition tab (n : nat) (F : nat -> elem) : array := map F (seq 0 n).

Local Open Scope Qc_scope.

(** Per-pixel statistics of a history of finite samples. *)
Definition qsum (xs : list Qc) : Qc := fold_right Qcplus 0 xs.

Definition qlen (xs : list Qc) : Qc := Z2Qc (Z.of_nat (length xs)).

Definition qmean (xs : list Qc) : Qc := qsum xs / qlen xs.

Definition qsq (xs : list Qc) : Qc := qsum (map (fun x => x * x) xs).

(** Sum of squared deviations from the mean. *)
Definition qssd (xs : list Qc) : Qc :=
  qsum (map (fun x => (x - qmean xs) * (x - qmean xs)) xs).

(** Two-pass population variance: the mean first, then the sum of squared
    deviations from it, divided by the number of samples. *)
Definition population_variance (xs : list Qc) : Qc := qssd xs / qlen xs.

(** The samples of pixel [i] over a list of finite frames. *)
Definition col (i : nat) (rows : list (list Qc)) : list Qc :=
  map (fun r => nth i r 0) rows.

Definition fin_tile (sig : nat) (rows : list (list Qc)) : Tile :=
  mkTile sig (map fin rows).

Definition rect (sig : nat) (rows : list (list Qc)) : Prop :=
  Forall (fun r => length r = sig) rows.

(** The accumulator [p] holds exactly the frames [hist]. *)
Definition describes (sig : nat) (p : VariancePart) (hist : list (list Qc)) : Prop :=
  var p = tab sig (fun i => Some (qssd (col i hist))) /\
  sum_im p = tab sig (fun i => Some (qsum (col i hist))) /\
  N p = Z.of_nat (length hist).

(** Frames streamed one by one, as single-frame tiles under one key. *)
Definition stream {K : Type} (K_eq_dec : forall a b : K, {a = b} + {a <> b})
    (key : K) (sig : nat) (rows : list (list Qc)) (results : Results K) : Results K :=
  fold_left (fun st r => StdDevUDF.process_tile K_eq_dec key (fin_tile sig [r]) st)
    rows results.

(** Tiles of any frame count, folded one after the other under one key. *)
Definition stream_tiles {K : Type} (K_eq_dec : forall a b : K, {a = b} + {a <> b})
    (key : K) (sig : nat) (tiles : list (list (list Qc))) (results : Results K)
    : Results K :=
  fold_left (fun st rows => StdDevUDF.process_tile K_eq_dec key (fin_tile sig rows) st)
    tiles results.

(** The buffers hold exactly the frames [hist], all seen under [key]. *)
Definition tracks {K : Type} (K_eq_dec : forall a b : K, {a = b} + {a <> b})
    (key : K) (sig : nat) (results : Results K) (hist : list (list Qc)) : Prop :=
  describes sig (running_accumulator K_eq_dec key results) hist /\
  res_num_frame results
  = match hist with
    | [] => []
    | _ :: _ => [(key, Z.of_nat (length hist))]
    end.

Local Close Scope Qc_scope.

(** Two entries of a count dictionary disagree. *)
Definition inconsistent {K : Type} (d : dict K) : Prop :=
  exists k1 n1 k2 n2, In (k1, n1) d /\ In (k2, n2) d /\ n1 <> n2.

(** ** Reduction trees *)

(** The ways a host can combine the two steps under one region key: a
    worker folds its tiles into fresh buffers, and two partial results are
    merged, [dest] receiving [src]. *)
Inductive reduction : Type :=
| Worker (tiles : list (list (list Qc)))
| Merged (dest src : reduction).

Fixpoint run {K : Type} (K_eq_dec : forall a b : K, {a = b} + {a <> b})
    (key : K) (sig : nat) (r : reduction) : result (Results K) :=
  match r with
  | Worker tiles => Return (stream_tiles K_eq_dec key sig tiles (fresh sig))
  | Merged d s =>
      dest <- run K_eq_dec key sig d ;;
      src <- run K_eq_dec key sig s ;;
      StdDevUDF.merge K_eq_dec dest src
  end.

(** The frames a reduction tree has folded in, in tree order. *)
Fixpoint frames_of (r : reduction) : list (list Qc) :=
  match r with
  | Worker tiles => concat tiles
  | Merged d s => frames_of d ++ frames_of s
  end.

(** Every tile is a non-empty block of frames of the signal size, and every
    [src] of a merge has seen at least one frame. *)
Fixpoint well_fed (sig : nat) (r : reduction) : Prop :=
  match r with
  | Worker tiles => Forall (fun rows => rect sig rows /\ rows <> []) tiles
  | Merged d s => well_fed sig d /\ well_fed sig s /\ frames_of s <> []
  end.

(** ** Concrete inputs *)

(** An integer-valued finite element. *)
Definition int (z : Z) : elem := Some (Z2Qc z).

(** Two frames [(1, 2)], [(3, 4)] against one frame [(5, 2)], two pixels. *)
Definition c1_A : VariancePart := mkVariancePart [int 2; int 2] [int 4; int 6] 2.
Definition c1_B : VariancePart := mkVariancePart [int 0; int 0] [int 5; int 2] 1.

(** An accumulator that never saw a frame. *)
Definition empty_part : VariancePart := mkVariancePart [int 0; int 0] [int 0; int 0] 0.

(** Two finite frames of two pixels. *)
Definition c2_rows : list (list Qc) := [[Z2Qc 1; Z2Qc 2]; [Z2Qc 3; Z2Qc 6]].

(** A tile of two frames over two pixels, and buffers that saw key 7 twice. *)
Definition c6_tile : Tile := mkTile 2 [[int 1; int 2]; [int 3; int 6]].
Definition c6_results : Results nat :=
  mkResults [int 2; int 2] [int 4; int 6] [(7%nat, 2)].

(** Two partition results over the same two regions. *)
Definition c7_dest : Results nat :=
  mkResults [int 2; int 2] [int 4; int 6] [(0%nat, 2); (1%nat, 2)].
Definition c7_src : Results nat :=
  mkResults [int 0; int 0] [int 5; int 2] [(1%nat, 1); (2%nat, 1)].

(** A square root for the concrete runs: exact on 0, 1 and 4, and not
    representable (treated as non-finite) elsewhere. *)
Definition sqrt_small (x : Qc) : elem :=
  if Qc_eq_bool x (Z2Qc 0) then int 0
  else if Qc_eq_bool x (Z2Qc 1) then int 1
  else if Qc_eq_bool x (Z2Qc 4) then int 2
  else None.

(** Fully merged buffers of two frames [(1, 2)], [(3, 6)]. *)
Definition c8_results : Results nat :=
  mkResults [int 2; int 8] [int 4; int 8] [(0%nat, 2); (1%nat, 2)].

(** Region 0 is the first pixel, region 1 the second.  [c10_dest] saw two
    frames (values 1 and 3) on region 0 only, [c10_src] one frame (value 5)
    on region 1 only. *)
Definition c10_dest : Results nat :=
  mkResults [int 2; int 0] [int 4; int 0] [(0%nat, 2)].
Definition c10_src : Results nat :=
  mkResults [int 0; int 0] [int 0; int 5] [(1%nat, 1)].

(** Ten frames of 4 x 4 pixels, frame [i] filled with the value [i]. *)
Definition ten_frames : list (list Qc) :=
  map (fun i => repeat (Z2Qc i) 16) [0; 1; 2; 3; 4; 5; 6; 7; 8; 9].

Definition worker (rows : list (list Qc)) : Results nat :=
  StdDevUDF.process_tile Nat.eq_dec 0%nat (fin_tile 16 rows) (fresh 16).

(** The frames behind [c1_A] and [c1_B]. *)
Definition rows_A : list (list Qc) := [[Z2Qc 1; Z2Qc 2]; [Z2Qc 3; Z2Qc 4]].
Definition rows_B : list (list Qc) := [[Z2Qc 5; Z2Qc 2]].

(** Three workers, the first without any tile; and the same frames with the
    workers in the other order and another tiling. *)
Definition tree_1 : reduction :=
  Merged (Merged (Worker []) (Worker [rows_A])) (Worker [rows_B]).
Definition tree_2 : reduction :=
  Merged (Worker [rows_B]) (Worker [[[Z2Qc 1; Z2Qc 2]]; [[Z2Qc 3; Z2Qc 4]]]).

(** * Properties *)

Section Algebra.
Local Open Scope Qc_scope.

Lemma Z2Qc_add a b : Z2Qc (a + b) = Z2Qc a + Z2Qc b.
Proof.
  unfold Z2Qc, Qcplus. apply Q2Qc_eq_iff. cbn [this Q2Qc].
  rewrite !Qred_correct, inject_Z_plus. reflexivity.
Qed.

Lemma Z2Qc_neq0 n : n <> 0%Z -> Z2Qc n <> 0.
Proof.
  intros Hn H. apply Hn. unfold Z2Qc in H.
  apply Q2Qc_eq_iff in H. unfold Qeq in H. simpl in H. lia.
Qed.

Lemma Z2Qc_0 : Z2Qc 0 = 0.
Proof. apply Qc_is_canon. reflexivity. Qed.

Lemma Z2Qc_1 : Z2Qc 1 = 1.
Proof. apply Qc_is_canon. reflexivity. Qed.

Lemma qlen_nil : qlen [] = 0.
Proof. exact Z2Qc_0. Qed.

Lemma qlen_cons x xs : qlen (x :: xs) = 1 + qlen xs.
Proof.
  unfold qlen. cbn [length]. rewrite Nat2Z.inj_succ, <- Z.add_1_l.
  now rewrite Z2Qc_add, Z2Qc_1.
Qed.

Lemma qlen_app xs ys : qlen (xs ++ ys) = qlen xs + qlen ys.
Proof.
  unfold qlen. now rewrite length_app, Nat2Z.inj_add, Z2Qc_add.
Qed.

Lemma qlen_neq0 xs : xs <> [] -> qlen xs <> 0.
Proof.
  intros H. apply Z2Qc_neq0. destruct xs; [congruence | cbn [length]; lia].
Qed.

Lemma qsum_nil : qsum [] = 0.
Proof. reflexivity. Qed.

Lemma qsum_cons x xs : qsum (x :: xs) = x + qsum xs.
Proof. reflexivity. Qed.

Lemma qsum_app xs ys : qsum (xs ++ ys) = qsum xs + qsum ys.
Proof.
  induction xs as [|x xs IH]; cbn [app].
  - rewrite qsum_nil. ring.
  - rewrite !qsum_cons, IH. ring.
Qed.

Lemma qsq_app xs ys : qsq (xs ++ ys) = qsq xs + qsq ys.
Proof. unfold qsq. now rewrite map_app, qsum_app. Qed.

Lemma qsum_sqdev c xs :
  qsum (map (fun x => (x - c) * (x - c)) xs)
  = qsq xs - (1 + 1) * c * qsum xs + qlen xs * c * c.
Proof.
  unfold qsq. induction xs as [|x xs IH]; cbn [map].
  - rewrite !qsum_nil, qlen_nil. ring.
  - rewrite !qsum_cons, IH, qlen_cons. ring.
Qed.

Lemma qssd_alt xs :
  xs <> [] -> qssd xs = qsq xs - qsum xs * qsum xs / qlen xs.
Proof.
  intros H. unfold qssd, qmean. rewrite qsum_sqdev.
  pose proof (qlen_neq0 xs H). field. assumption.
Qed.

(** The parallel update of the sum of squared deviations, on one pixel. *)
Lemma chan_update xs ys :
  xs <> [] -> ys <> [] ->
  let delta := qsum ys / qlen ys - qsum xs / qlen xs in
  let delta_P := qsum ys / qlen ys
                 - (qsum xs / qlen xs + qlen ys * delta / (qlen xs + qlen ys)) in
  qssd (xs ++ ys) = qssd xs + qssd ys + qlen ys * delta * delta_P.
Proof.
  intros Hx Hy delta delta_P. subst delta delta_P.
  assert (Hxy : xs ++ ys <> []) by (destruct xs; [congruence | discriminate]).
  rewrite !qssd_alt by assumption.
  rewrite qsq_app, qsum_app.
  pose proof (qlen_neq0 _ Hx). pose proof (qlen_neq0 _ Hy).
  pose proof (qlen_neq0 _ Hxy) as Hn. rewrite qlen_app in Hn |- *.
  field. repeat split; assumption.
Qed.

End Algebra.

(** ** Arrays given by their elements *)

Lemma map2_map {A B C D : Type} (f : B -> C -> D) (F : A -> B) (G : A -> C) l :
  map2 f (map F l) (map G l) = map (fun i => f (F i) (G i)) l.
Proof.
  induction l as [|x l IH]; cbn [map map2]; [reflexivity | now rewrite IH].
Qed.

Lemma length_tab n F : length (tab n F) = n.
Proof. unfold tab. now rewrite length_map, length_seq. Qed.

Lemma tab_ext n F G :
  (forall i, (i < n)%nat -> F i = G i) -> tab n F = tab n G.
Proof.
  intros H. unfold tab. apply map_ext_in. intros i Hi.
  apply in_seq in Hi. apply H. lia.
Qed.

Lemma nth_tab n F i : (i < n)%nat -> nth i (tab n F) None = F i.
Proof.
  intros Hi. unfold tab.
  rewrite (nth_indep _ None (F 0%nat)) by now rewrite length_map, length_seq.
  rewrite map_nth, seq_nth by assumption. reflexivity.
Qed.

Lemma vadd_tab n F G :
  (tab n F + tab n G)%arr = tab n (fun i => eadd (F i) (G i)).
Proof. apply map2_map. Qed.

Lemma vsub_tab n F G :
  (tab n F - tab n G)%arr = tab n (fun i => esub (F i) (G i)).
Proof. apply map2_map. Qed.

Lemma vmul_tab n F G :
  (tab n F * tab n G)%arr = tab n (fun i => emul (F i) (G i)).
Proof. apply map2_map. Qed.

Lemma vscale_tab n c F : vscale c (tab n F) = tab n (fun i => escale c (F i)).
Proof. apply map_map. Qed.

Lemma vdiv_tab n F c : vdiv (tab n F) c = tab n (fun i => ediv (F i) c).
Proof. apply map_map. Qed.

Lemma zeros_tab n : zeros n = tab n (fun _ => Some 0%Qc).
Proof.
  unfold zeros, tab. now rewrite map_const, length_seq.
Qed.

Lemma list_as_map {A : Type} (d : A) (l : list A) :
  l = map (fun i => nth i l d) (seq 0 (length l)).
Proof.
  induction l as [|x l IH]; [reflexivity|].
  cbn [length seq map nth]. f_equal.
  rewrite <- seq_shift, map_map. exact IH.
Qed.

Lemma array_as_tab (a : array) : a = tab (length a) (fun i => nth i a None).
Proof. apply list_as_map. Qed.

Lemma fin_tab n (r : list Qc) :
  length r = n -> fin r = tab n (fun i => Some (nth i r 0%Qc)).
Proof.
  intros <-. unfold fin, tab.
  rewrite (list_as_map 0%Qc r) at 1. apply map_map.
Qed.

Lemma nth_some_lt (a : array) i v : nth i a None = Some v -> (i < length a)%nat.
Proof.
  intros H. destruct (Nat.lt_ge_cases i (length a)) as [|Hge]; [assumption|].
  rewrite nth_overflow in H by assumption. discriminate.
Qed.

(** ** The merge on arrays given by their elements *)

Lemma merge_tab n VA SA NA VB SB NB :
  NA <> 0 ->
  merge (mkVariancePart (tab n VA) (tab n SA) NA)
        (mkVariancePart (tab n VB) (tab n SB) NB)
  = mkVariancePart (tab n (fun i => evar (VA i) (SA i) NA (VB i) (SB i) NB))
                   (tab n (fun i => eadd (SA i) (SB i)))
                   (NA + NB).
Proof.
  intros HNA. unfold merge. cbn [N var sum_im].
  apply Z.eqb_neq in HNA. rewrite HNA.
  repeat first [ rewrite vdiv_tab | rewrite vsub_tab | rewrite vscale_tab
               | rewrite vadd_tab | rewrite vmul_tab ].
  reflexivity.
Qed.

Lemma merge_empty_left p0 p1 : N p0 = 0 -> merge p0 p1 = p1.
Proof. intros H. unfold merge. now rewrite H. Qed.

Lemma merge_N p0 p1 : N (merge p0 p1) = N p0 + N p1.
Proof.
  unfold merge. destruct (N p0 =? 0) eqn:E; [|reflexivity].
  apply Z.eqb_eq in E. lia.
Qed.

(** ** The merge formula on one element *)

Section Element.
Local Open Scope Qc_scope.

Lemma ediv_some x n : n <> 0%Z -> ediv (Some x) n = Some (x / Z2Qc n).
Proof.
  intros H. unfold ediv. apply Z.eqb_neq in H. now rewrite H.
Qed.

Lemma ediv_zero x : ediv x 0 = None.
Proof. reflexivity. Qed.

Lemma ediv_one x : ediv x 1 = x.
Proof.
  destruct x as [x|]; [|reflexivity].
  rewrite ediv_some by discriminate. rewrite Z2Qc_1. f_equal. field.
  discriminate.
Qed.

Lemma evar_fin va sa na vb sb nb :
  na <> 0%Z -> nb <> 0%Z -> (na + nb <> 0)%Z ->
  let delta := sb / Z2Qc nb - sa / Z2Qc na in
  let delta_P := sb / Z2Qc nb
                 - (sa / Z2Qc na + Z2Qc nb * delta / Z2Qc (na + nb)) in
  evar (Some va) (Some sa) na (Some vb) (Some sb) nb
  = Some (va + vb + Z2Qc nb * delta * delta_P).
Proof.
  intros Ha Hb Hab. unfold evar. rewrite !ediv_some by assumption.
  cbn [esub lift2 escale option_map]. rewrite ediv_some by assumption.
  reflexivity.
Qed.

Lemma evar_chan xs ys :
  xs <> [] -> ys <> [] ->
  evar (Some (qssd xs)) (Some (qsum xs)) (Z.of_nat (length xs))
       (Some (qssd ys)) (Some (qsum ys)) (Z.of_nat (length ys))
  = Some (qssd (xs ++ ys)).
Proof.
  intros Hx Hy.
  assert (length xs <> 0%nat) by (destruct xs; [congruence | discriminate]).
  assert (length ys <> 0%nat) by (destruct ys; [congruence | discriminate]).
  rewrite evar_fin by lia. cbv zeta. rewrite Z2Qc_add.
  fold (qlen xs) (qlen ys). f_equal. symmetry.
  apply (chan_update xs ys Hx Hy).
Qed.

Lemma evar_comm va sa na vb sb nb :
  na <> 0%Z -> nb <> 0%Z -> (na + nb <> 0)%Z ->
  evar va sa na vb sb nb = evar vb sb nb va sa na.
Proof.
  intros Ha Hb Hab.
  destruct va as [va|], sa as [sa|], vb as [vb|], sb as [sb|];
    unfold evar; rewrite ?ediv_some by assumption;
    unfold ediv; rewrite ?(proj2 (Z.eqb_neq _ _) Ha), ?(proj2 (Z.eqb_neq _ _) Hb);
    try reflexivity.
  cbn [esub lift2 escale option_map eadd emul].
  rewrite (Z.add_comm nb na).
  rewrite (proj2 (Z.eqb_neq _ _) Hab). cbn [option_map lift2].
  f_equal. rewrite Z2Qc_add.
  pose proof (Z2Qc_neq0 _ Ha). pose proof (Z2Qc_neq0 _ Hb).
  pose proof (Z2Qc_neq0 _ Hab) as H1. rewrite Z2Qc_add in H1.
  field. repeat split; assumption.
Qed.

Lemma evar_assoc va sa na vb sb nb vc sc nc :
  (0 < na)%Z -> (0 < nb)%Z -> (0 < nc)%Z ->
  evar (evar va sa na vb sb nb) (eadd sa sb) (na + nb) vc sc nc
  = evar va sa na (evar vb sb nb vc sc nc) (eadd sb sc) (nb + nc).
Proof.
  intros Ha Hb Hc.
  assert (E1 : (na =? 0)%Z = false) by (apply Z.eqb_neq; lia).
  assert (E2 : (nb =? 0)%Z = false) by (apply Z.eqb_neq; lia).
  assert (E3 : (nc =? 0)%Z = false) by (apply Z.eqb_neq; lia).
  assert (E4 : (na + nb =? 0)%Z = false) by (apply Z.eqb_neq; lia).
  assert (E5 : (nb + nc =? 0)%Z = false) by (apply Z.eqb_neq; lia).
  assert (E6 : (na + nb + nc =? 0)%Z = false) by (apply Z.eqb_neq; lia).
  assert (E7 : (na + (nb + nc) =? 0)%Z = false) by (apply Z.eqb_neq; lia).
  unfold evar, ediv. rewrite E1, E2, E3, E4, E5, E6, E7.
  destruct va as [va|], sa as [sa|], vb as [vb|], sb as [sb|],
           vc as [vc|], sc as [sc|];
    cbn [esub lift2 escale option_map eadd emul]; try reflexivity.
  f_equal. rewrite !Z2Qc_add.
  assert (Ga : Z2Qc na <> 0) by (apply Z2Qc_neq0; lia).
  assert (Gb : Z2Qc nb <> 0) by (apply Z2Qc_neq0; lia).
  assert (Gc : Z2Qc nc <> 0) by (apply Z2Qc_neq0; lia).
  assert (Gab : Z2Qc na + Z2Qc nb <> 0)
    by (rewrite <- Z2Qc_add; apply Z2Qc_neq0; lia).
  assert (Gbc : Z2Qc nb + Z2Qc nc <> 0)
    by (rewrite <- Z2Qc_add; apply Z2Qc_neq0; lia).
  assert (Gabc : Z2Qc na + Z2Qc nb + Z2Qc nc <> 0)
    by (rewrite <- !Z2Qc_add; apply Z2Qc_neq0; lia).
  assert (Gabc' : Z2Qc na + (Z2Qc nb + Z2Qc nc) <> 0)
    by (rewrite <- !Z2Qc_add; apply Z2Qc_neq0; lia).
  field. repeat split; assumption.
Qed.

End Element.

(** ** The merge on whole accumulators *)

Lemma array_is_tab (a : array) n : length a = n -> exists F, a = tab n F.
Proof.
  intros <-. exists (fun i => nth i a None). apply array_as_tab.
Qed.

(** Replace an array of known length by the table of its elements. *)
Ltac tabulate H F := destruct (array_is_tab _ _ H) as [F ->].

(** X1. Accumulators with positive counts over one region (arrays of one
    length): the merge is commutative, exactly, non-finite elements
    included. *)
Lemma merge_comm_pos n A B :
  length (var A) = n -> length (sum_im A) = n ->
  length (var B) = n -> length (sum_im B) = n ->
  0 < N A -> 0 < N B ->
  merge A B = merge B A.
Proof.
  destruct A as [va sa na], B as [vb sb nb]. cbn [var sum_im N].
  intros Hva Hsa Hvb Hsb Ha Hb.
  tabulate Hva VA.
  tabulate Hsa SA.
  tabulate Hvb VB.
  tabulate Hsb SB.
  rewrite !merge_tab by lia. f_equal.
  - apply tab_ext. intros i _. apply evar_comm; lia.
  - apply tab_ext. intros i _.
    destruct (SA i), (SB i); cbn [eadd lift2]; try reflexivity.
    f_equal. apply Qcplus_comm.
  - lia.
Qed.

(** X2. Accumulators with positive counts over one region: the merge is
    associative, exactly, non-finite elements included. *)
Lemma merge_assoc_pos n A B C :
  length (var A) = n -> length (sum_im A) = n ->
  length (var B) = n -> length (sum_im B) = n ->
  length (var C) = n -> length (sum_im C) = n ->
  0 < N A -> 0 < N B -> 0 < N C ->
  merge (merge A B) C = merge A (merge B C).
Proof.
  destruct A as [va sa na], B as [vb sb nb], C as [vc sc nc].
  cbn [var sum_im N].
  intros Hva Hsa Hvb Hsb Hvc Hsc Ha Hb Hc.
  tabulate Hva VA.
  tabulate Hsa SA.
  tabulate Hvb VB.
  tabulate Hsb SB.
  tabulate Hvc VC.
  tabulate Hsc SC.
  rewrite (merge_tab n VA SA na VB SB nb) by lia.
  rewrite (merge_tab n VB SB nb VC SC nc) by lia.
  rewrite !merge_tab by lia. f_equal.
  - apply tab_ext. intros i _. apply evar_assoc; assumption.
  - apply tab_ext. intros i _.
    destruct (SA i), (SB i), (SC i); cbn [eadd lift2]; try reflexivity.
    f_equal. symmetry. apply Qcplus_assoc.
  - lia.
Qed.

Lemma col_app i h1 h2 : col i (h1 ++ h2) = col i h1 ++ col i h2.
Proof. apply map_app. Qed.

Lemma length_col i h : length (col i h) = length h.
Proof. apply length_map. Qed.

Lemma col_nonempty i h : h <> [] -> col i h <> [].
Proof. destruct h; [congruence | discriminate]. Qed.

(** Merging an accumulator of the frames [h1] with one of the frames [h2]
    (at least one frame) gives the accumulator of [h1 ++ h2]. *)
Lemma merge_describes sig A B h1 h2 :
  describes sig A h1 -> describes sig B h2 -> h2 <> [] ->
  describes sig (merge A B) (h1 ++ h2).
Proof.
  destruct A as [va sa na], B as [vb sb nb].
  intros (HvA & HsA & HnA) (HvB & HsB & HnB) Hh2.
  cbn [var sum_im N] in *. subst.
  destruct h1 as [|r1 h1].
  - rewrite merge_empty_left by reflexivity.
    repeat split; reflexivity.
  - set (h := r1 :: h1) in *.
    assert (Hh : h <> []) by discriminate.
    assert (length h <> 0%nat) by (subst h; discriminate).
    rewrite merge_tab by lia.
    repeat split; cbn [var sum_im N].
    + apply tab_ext. intros i _.
      rewrite <- (length_col i h), <- (length_col i h2), col_app.
      apply evar_chan; now apply col_nonempty.
    + apply tab_ext. intros i _. cbn [eadd lift2].
      now rewrite col_app, qsum_app.
    + rewrite length_app. lia.
Qed.

(** ** Reductions over the frame axis *)

Lemma sum_axis0_tab {A : Type} n (F : A -> nat -> elem) rows :
  sum_axis0 n (map (fun r => tab n (F r)) rows)
  = tab n (fun i => esum (map (fun r => F r i) rows)).
Proof.
  unfold sum_axis0. induction rows as [|r rows IH]; cbn [map fold_right].
  - apply zeros_tab.
  - rewrite IH, vadd_tab. reflexivity.
Qed.

Lemma esum_some {A : Type} (g : A -> Qc) rows :
  esum (map (fun r => Some (g r)) rows) = Some (qsum (map g rows)).
Proof.
  unfold esum. induction rows as [|r rows IH]; cbn [map fold_right].
  - reflexivity.
  - rewrite IH. reflexivity.
Qed.

Lemma map_fin_tab n rows :
  rect n rows ->
  map fin rows = map (fun r => tab n (fun i => Some (nth i r 0%Qc))) rows.
Proof.
  intros H. apply map_ext_in. intros r Hr. apply fin_tab.
  unfold rect in H. rewrite Forall_forall in H. now apply H.
Qed.

Lemma sum_axis0_fin n rows :
  rect n rows ->
  sum_axis0 n (map fin rows) = tab n (fun i => Some (qsum (col i rows))).
Proof.
  intros H. rewrite (map_fin_tab n rows H), sum_axis0_tab.
  apply tab_ext. intros i _. apply esum_some.
Qed.

Lemma vdiv_one a : vdiv a 1 = a.
Proof.
  unfold vdiv. rewrite <- (map_id a) at 2. apply map_ext. apply ediv_one.
Qed.

(** With [ddof = frames - 1] the divisor of [np.var] is exactly 1: what is
    left is the raw sum of squared deviations from the tile's own mean. *)
Lemma np_var_ddof t :
  np_var t (shape0 t - 1) = sum_sq_dev t.
Proof.
  unfold np_var, sum_sq_dev, tile_mean.
  replace (Z.max (shape0 t - (shape0 t - 1)) 0) with 1 by lia.
  rewrite vdiv_one, map_map. reflexivity.
Qed.

Lemma sum_sq_dev_fin n rows :
  rect n rows -> rows <> [] ->
  sum_sq_dev (fin_tile n rows) = tab n (fun i => Some (qssd (col i rows))).
Proof.
  intros Hrect Hne. unfold sum_sq_dev, tile_mean, fin_tile, shape0.
  cbn [sig_size frames]. rewrite length_map.
  rewrite (sum_axis0_fin n rows Hrect), vdiv_tab.
  rewrite (map_fin_tab n rows Hrect), map_map.
  erewrite map_ext.
  2:{ intros r. rewrite vsub_tab, vmul_tab. reflexivity. }
  rewrite (sum_axis0_tab n
    (fun r i =>
       emul (esub (Some (nth i r 0%Qc))
                  (ediv (Some (qsum (col i rows))) (Z.of_nat (length rows))))
            (esub (Some (nth i r 0%Qc))
                  (ediv (Some (qsum (col i rows))) (Z.of_nat (length rows)))))).
  apply tab_ext. intros i _.
  assert (length rows <> 0%nat) by (destruct rows; [congruence | discriminate]).
  rewrite ediv_some by lia. cbn [esub emul lift2].
  rewrite esum_some. unfold qssd, qmean, qlen, col.
  rewrite map_map, length_map. reflexivity.
Qed.

(** ** Dictionaries *)

Section DictFacts.
Context {K : Type} (K_eq_dec : forall a b : K, {a = b} + {a <> b}).

Lemma dict_get_set_same k v (d : dict K) :
  dict_get K_eq_dec (dict_set K_eq_dec k v d) k = Some v.
Proof.
  induction d as [|[k' v'] d IH]; cbn [dict_set dict_get].
  - destruct (K_eq_dec k k); [reflexivity | congruence].
  - destruct (K_eq_dec k k') as [E|E]; cbn [dict_get].
    + destruct (K_eq_dec k k'); [reflexivity | congruence].
    + destruct (K_eq_dec k k'); [congruence | exact IH].
Qed.

Lemma dict_get_set_other k k' v (d : dict K) :
  k' <> k ->
  dict_get K_eq_dec (dict_set K_eq_dec k v d) k' = dict_get K_eq_dec d k'.
Proof.
  intros Hne. induction d as [|[k0 v0] d IH]; cbn [dict_set dict_get].
  - destruct (K_eq_dec k' k); [congruence | reflexivity].
  - destruct (K_eq_dec k k0) as [E|E]; cbn [dict_get].
    + destruct (K_eq_dec k' k0); [congruence | reflexivity].
    + destruct (K_eq_dec k' k0); [reflexivity | exact IH].
Qed.

Lemma dict_get_none k (d : dict K) :
  dict_get K_eq_dec d k = None <-> ~ In k (dict_keys d).
Proof.
  induction d as [|[k0 v0] d IH]; cbn [dict_get dict_keys map fst In].
  - tauto.
  - destruct (K_eq_dec k k0) as [E|E].
    + split; [discriminate | intros H; exfalso; apply H; left; congruence].
    + rewrite IH. unfold dict_keys. split.
      * intros H [H'|H']; [congruence | contradiction].
      * intros H H'. apply H. now right.
Qed.

(** The loop [for key in src: dest[key] = v]. *)
Lemma dict_get_fold_set_keeps v keys : forall (d : dict K) k,
  dict_get K_eq_dec d k = Some v ->
  dict_get K_eq_dec
    (fold_left (fun d key => dict_set K_eq_dec key v d) keys d) k = Some v.
Proof.
  induction keys as [|k0 keys IH]; intros d k H; [exact H|].
  cbn [fold_left]. apply IH.
  destruct (K_eq_dec k k0) as [->|Hne].
  - apply dict_get_set_same.
  - now rewrite dict_get_set_other.
Qed.

Lemma dict_get_fold_set_in v keys : forall (d : dict K) k,
  In k keys ->
  dict_get K_eq_dec
    (fold_left (fun d key => dict_set K_eq_dec key v d) keys d) k = Some v.
Proof.
  induction keys as [|k0 keys IH]; intros d k Hin; [destruct Hin|].
  cbn [fold_left]. destruct Hin as [->|Hin].
  - apply dict_get_fold_set_keeps, dict_get_set_same.
  - now apply IH.
Qed.

Lemma dict_get_fold_set_notin v keys : forall (d : dict K) k,
  ~ In k keys ->
  dict_get K_eq_dec
    (fold_left (fun d key => dict_set K_eq_dec key v d) keys d) k
  = dict_get K_eq_dec d k.
Proof.
  induction keys as [|k0 keys IH]; intros d k Hk; [reflexivity|].
  cbn [fold_left]. rewrite IH by (intros H; apply Hk; now right).
  apply dict_get_set_other. intros ->. apply Hk. now left.
Qed.
End DictFacts.

(** ** Count validation *)

Section Validate.
Context {K : Type}.

Lemma validate_return_inv (d : dict K) n :
  _validate_n d = Return n -> forall k m, In (k, m) d -> m = n.
Proof.
  unfold _validate_n. destruct d as [|[k0 v0] d]; intros H k m Hin.
  - destruct Hin.
  - cbn [dict_values map snd] in H.
    destruct (forallb (Z.eqb v0) (v0 :: map snd d)) eqn:E; [|discriminate].
    injection H as <-. rewrite forallb_forall in E.
    symmetry. apply Z.eqb_eq, E.
    change (In (snd (k, m)) (map snd ((k0, v0) :: d))).
    now apply in_map.
Qed.

Lemma validate_all_equal (d : dict K) v :
  d <> [] -> (forall k n, In (k, n) d -> n = v) -> _validate_n d = Return v.
Proof.
  intros Hne Hall. unfold _validate_n.
  destruct d as [|[k0 v0] d]; [congruence|].
  cbn [dict_values map snd].
  assert (v0 = v) as -> by (apply (Hall k0); now left).
  replace (forallb (Z.eqb v) (v :: map snd d)) with true; [reflexivity|].
  symmetry. apply forallb_forall. intros n Hn. apply Z.eqb_eq.
  change (In n (map snd ((k0, v) :: d))) in Hn.
  apply in_map_iff in Hn. destruct Hn as ([k m] & <- & Hin).
  symmetry. now apply (Hall k).
Qed.

Lemma validate_differ (d : dict K) k1 n1 k2 n2 :
  In (k1, n1) d -> In (k2, n2) d -> n1 <> n2 ->
  _validate_n d = Raise AssertionError.
Proof.
  intros H1 H2 Hne. destruct (_validate_n d) as [n|[]] eqn:E; [|reflexivity].
  exfalso. apply Hne.
  rewrite (validate_return_inv d n E k1 n1 H1).
  now rewrite (validate_return_inv d n E k2 n2 H2).
Qed.

Lemma validate_singleton (k : K) n : _validate_n [(k, n)] = Return n.
Proof.
  unfold _validate_n. cbn. now rewrite Z.eqb_refl.
Qed.
End Validate.

(** ** The tile update *)

Section TileUpdate.
Context {K : Type} (K_eq_dec : forall a b : K, {a = b} + {a <> b}).

Lemma dict_get_seen key (results : Results K) :
  dict_get K_eq_dec (seen K_eq_dec key (res_num_frame results)) key
  = Some (stored_count K_eq_dec key results).
Proof.
  unfold seen, dict_mem, stored_count.
  destruct (dict_get K_eq_dec (res_num_frame results) key) eqn:E.
  - exact E.
  - apply dict_get_set_same.
Qed.

Lemma process_tile_unfold key tile results :
  StdDevUDF.process_tile K_eq_dec key tile results
  = let m := merge (running_accumulator K_eq_dec key results)
                   (local_accumulator tile) in
    mkResults (var m) (sum_im m)
      (dict_set K_eq_dec key (stored_count K_eq_dec key results + shape0 tile)
         (seen K_eq_dec key (res_num_frame results))).
Proof.
  unfold StdDevUDF.process_tile.
  fold (seen K_eq_dec key (res_num_frame results)).
  rewrite dict_get_seen, np_var_ddof. cbv zeta.
  fold (local_accumulator tile).
  fold (running_accumulator K_eq_dec key results).
  rewrite merge_N. reflexivity.
Qed.

Lemma process_tile_count key tile results :
  stored_count K_eq_dec key (StdDevUDF.process_tile K_eq_dec key tile results)
  = stored_count K_eq_dec key results + shape0 tile.
Proof.
  rewrite process_tile_unfold. cbv zeta.
  unfold stored_count at 1. cbn [res_num_frame].
  now rewrite dict_get_set_same.
Qed.

Lemma process_tile_other key key' tile results :
  key' <> key ->
  dict_get K_eq_dec (res_num_frame (StdDevUDF.process_tile K_eq_dec key tile results)) key'
  = dict_get K_eq_dec (res_num_frame results) key'.
Proof.
  intros Hne. rewrite process_tile_unfold. cbv zeta. cbn [res_num_frame].
  rewrite dict_get_set_other by assumption.
  unfold seen. destruct (dict_mem _ _ _); [reflexivity|].
  now apply dict_get_set_other.
Qed.

Lemma local_accumulator_describes sig rows :
  rect sig rows -> rows <> [] ->
  describes sig (local_accumulator (fin_tile sig rows)) rows.
Proof.
  intros Hrect Hne. unfold describes, local_accumulator. cbn [var sum_im N].
  rewrite (sum_sq_dev_fin sig rows Hrect Hne).
  unfold fin_tile, shape0. cbn [sig_size frames].
  rewrite (sum_axis0_fin sig rows Hrect), length_map. auto.
Qed.

(** A tile of finite frames advances the accumulator of its key from the
    frames [hist] to [hist ++ rows]: arrays and count together. *)
Lemma process_tile_describes key sig rows results hist :
  rect sig rows -> rows <> [] ->
  describes sig (running_accumulator K_eq_dec key results) hist ->
  describes sig
    (running_accumulator K_eq_dec key
       (StdDevUDF.process_tile K_eq_dec key (fin_tile sig rows) results))
    (hist ++ rows).
Proof.
  intros Hrect Hne Hd.
  pose proof (merge_describes sig _ _ hist rows Hd
                (local_accumulator_describes sig rows Hrect Hne) Hne)
    as (Hv & Hs & Hn).
  unfold running_accumulator at 1.
  fold (stored_count K_eq_dec key (StdDevUDF.process_tile K_eq_dec key (fin_tile sig rows) results)).
  rewrite process_tile_count. rewrite process_tile_unfold. cbv zeta.
  cbn [res_var res_sum_frame].
  repeat split; cbn [var sum_im N].
  - exact Hv.
  - exact Hs.
  - rewrite merge_N in Hn. exact Hn.
Qed.
End TileUpdate.

(** ** Streaming and finalization *)

Section Streaming.
Context {K : Type} (K_eq_dec : forall a b : K, {a = b} + {a <> b}).
Variable sqrt_fin : Qc -> elem.

Lemma tracks_preprocess key sig :
  tracks K_eq_dec key sig (fresh sig) [].
Proof.
  unfold tracks, describes, running_accumulator, fresh, StdDevUDF.preprocess,
  StdDevUDF.get_result_buffers.
  cbn [var sum_im N res_var res_sum_frame res_num_frame].
  repeat split; apply zeros_tab.
Qed.

Lemma process_tile_tracks key sig rows results hist :
  rect sig rows -> rows <> [] ->
  tracks K_eq_dec key sig results hist ->
  tracks K_eq_dec key sig
    (StdDevUDF.process_tile K_eq_dec key (fin_tile sig rows) results)
    (hist ++ rows).
Proof.
  intros Hrect Hne [Hd Hnf]. split.
  - now apply process_tile_describes.
  - rewrite process_tile_unfold. cbv zeta. cbn [res_num_frame].
    unfold stored_count, seen, dict_mem, shape0, fin_tile.
    cbn [frames]. rewrite length_map, Hnf.
    assert (Hlen : length rows <> 0%nat)
      by (destruct rows; [congruence | discriminate]).
    destruct hist as [|r0 hist].
    + cbn [dict_get dict_set app].
      destruct (K_eq_dec key key); [|congruence].
      destruct rows; [congruence|]. reflexivity.
    + cbn [dict_get dict_set].
      destruct (K_eq_dec key key); [|congruence].
      cbn [dict_set]. destruct (K_eq_dec key key); [|congruence].
      cbn [app]. rewrite <- Nat2Z.inj_add.
      change (r0 :: hist ++ rows) with ((r0 :: hist) ++ rows).
      now rewrite length_app.
Qed.

Lemma stream_tracks key sig rows : forall results hist,
  rect sig rows ->
  tracks K_eq_dec key sig results hist ->
  tracks K_eq_dec key sig (stream K_eq_dec key sig rows results) (hist ++ rows).
Proof.
  induction rows as [|r rows IH]; intros results hist Hrect Ht.
  - now rewrite app_nil_r.
  - unfold stream. cbn [fold_left]. fold (stream K_eq_dec key sig rows).
    inversion Hrect as [|? ? Hr Hrows]; subst.
    change (r :: rows) with ([r] ++ rows). rewrite app_assoc.
    apply IH; [assumption|].
    apply process_tile_tracks; [|discriminate|assumption].
    constructor; [reflexivity | constructor].
Qed.

Lemma stream_tiles_tracks key sig tiles : forall results hist,
  Forall (fun rows => rect sig rows /\ rows <> []) tiles ->
  tracks K_eq_dec key sig results hist ->
  tracks K_eq_dec key sig (stream_tiles K_eq_dec key sig tiles results)
    (hist ++ concat tiles).
Proof.
  induction tiles as [|rows tiles IH]; intros results hist Hall Ht.
  - cbn [concat]. now rewrite app_nil_r.
  - unfold stream_tiles. cbn [fold_left concat].
    fold (stream_tiles K_eq_dec key sig tiles).
    inversion Hall as [|? ? [Hrect Hne] Htiles]; subst.
    rewrite app_assoc. apply IH; [assumption|].
    now apply process_tile_tracks.
Qed.

Lemma vdiv_fin_tab sig (F : nat -> Qc) n :
  n <> 0 ->
  vdiv (tab sig (fun i => Some (F i))) n
  = fin (map (fun i => (F i / Z2Qc n)%Qc) (seq 0 sig)).
Proof.
  intros Hn. rewrite vdiv_tab. unfold fin, tab. rewrite map_map.
  apply map_ext. intros i. now apply ediv_some.
Qed.

(** Finalizing buffers that hold the frames [hist], at least one. *)
Lemma consolidate_tracks key sig results hist :
  hist <> [] ->
  tracks K_eq_dec key sig results hist ->
  exists r,
    consolidate_result sqrt_fin results = Return r /\
    out_var r = fin (map (fun i => population_variance (col i hist)) (seq 0 sig)) /\
    out_mean r = fin (map (fun i => qmean (col i hist)) (seq 0 sig)) /\
    out_sum_frame r = fin (map (fun i => qsum (col i hist)) (seq 0 sig)) /\
    out_num_frame r = Z.of_nat (length hist).
Proof.
  intros Hne [(Hv & Hs & _) Hnf].
  cbn [running_accumulator var sum_im] in Hv, Hs.
  destruct hist as [|r0 hist]; [congruence|].
  set (h := r0 :: hist) in *.
  assert (Hlen : Z.of_nat (length h) <> 0) by (subst h; cbn [length]; lia).
  unfold consolidate_result. rewrite Hnf, validate_singleton. cbn [bind].
  eexists. split; [reflexivity|]. cbn [out_var out_mean out_sum_frame out_num_frame].
  rewrite Hv, Hs. repeat split.
  - rewrite vdiv_fin_tab by assumption. unfold population_variance, qlen.
    f_equal. apply map_ext. intros i. now rewrite length_col.
  - rewrite vdiv_fin_tab by assumption. unfold qmean, qlen.
    f_equal. apply map_ext. intros i. now rewrite length_col.
  - unfold fin, tab. now rewrite map_map.
Qed.
(** Any tiling of the frames into non-empty tiles finalizes to the two-pass
    population variance of all of them. *)
Lemma tiles_equal_two_pass key sig tiles :
  Forall (fun rows => rect sig rows /\ rows <> []) tiles ->
  concat tiles <> [] ->
  exists r,
    consolidate_result sqrt_fin
      (stream_tiles K_eq_dec key sig tiles (fresh sig)) = Return r /\
    out_var r
    = fin (map (fun i => population_variance (col i (concat tiles))) (seq 0 sig)) /\
    out_num_frame r = Z.of_nat (length (concat tiles)).
Proof.
  intros Hall Hne.
  pose proof (stream_tiles_tracks key sig tiles _ [] Hall
                (tracks_preprocess key sig)) as Ht.
  cbn [app] in Ht.
  destruct (consolidate_tracks key sig _ _ Hne Ht) as (r & Hr & Hv & _ & _ & Hn).
  exists r. auto.
Qed.
End Streaming.

(** ** Deciding equality of concrete arrays *)

Lemma elem_eqb_eq x y : elem_eqb x y = true -> x = y.
Proof.
  destruct x as [a|], y as [b|]; cbn [elem_eqb]; try discriminate; [|reflexivity].
  intros H. f_equal. now apply Qc_eq_bool_correct.
Qed.

Lemma elem_eqb_refl x : elem_eqb x x = true.
Proof.
  destruct x as [a|]; [|reflexivity]. cbn [elem_eqb]. unfold Qc_eq_bool.
  destruct (Qc_eq_dec a a); [reflexivity | congruence].
Qed.

Lemma array_eqb_eq a : forall b, array_eqb a b = true -> a = b.
Proof.
  induction a as [|x a IH]; intros [|y b]; cbn [array_eqb]; try discriminate.
  - reflexivity.
  - intros H. apply andb_prop in H as [Hx Ha].
    f_equal; [now apply elem_eqb_eq | now apply IH].
Qed.

Lemma array_eqb_refl a : array_eqb a a = true.
Proof.
  induction a as [|x a IH]; [reflexivity|].
  cbn [array_eqb]. now rewrite elem_eqb_refl, IH.
Qed.

Lemma array_eqb_neq a b : array_eqb a b = false -> a <> b.
Proof.
  intros H ->. rewrite array_eqb_refl in H. discriminate.
Qed.

Lemma VariancePart_eq p v s n :
  array_eqb (var p) v = true -> array_eqb (sum_im p) s = true -> N p = n ->
  p = mkVariancePart v s n.
Proof.
  destruct p as [v' s' n']. cbn [var sum_im N]. intros Hv Hs ->.
  now rewrite (array_eqb_eq _ _ Hv), (array_eqb_eq _ _ Hs).
Qed.

(** * The claims *)

(** ** C1: the merge formula *)

(** C1. For accumulators [A] and [B] with positive counts the pairwise merge
    returns the count [N_A + N_B], the value sum [value_sum_A + value_sum_B]
    and the variance sum
    [variance_sum_A + variance_sum_B + N_B * delta * delta_P], where
    [delta = value_sum_B / N_B - value_sum_A / N_A] and
    [delta_P = value_sum_B / N_B - (value_sum_A / N_A + N_B * delta / (N_A + N_B))].
    The operations are elementwise with the counts broadcast: over one region
    (arrays of one length) the result has that length, and on finite elements
    each element is given by the same formula over the rationals. *)
Theorem merge_formula (A B : VariancePart) :
  0 < N A -> 0 < N B ->
  let delta := (vdiv (sum_im B) (N B) - vdiv (sum_im A) (N A))%arr in
  let delta_P :=
    (vdiv (sum_im B) (N B)
     - (vdiv (sum_im A) (N A) + vdiv (vscale (N B) delta) (N A + N B)))%arr in
  merge A B
  = mkVariancePart (var A + var B + vscale (N B) delta * delta_P)%arr
                   (sum_im A + sum_im B)%arr
                   (N A + N B)
  /\ forall n,
       length (var A) = n -> length (sum_im A) = n ->
       length (var B) = n -> length (sum_im B) = n ->
       length (var (merge A B)) = n /\ length (sum_im (merge A B)) = n /\
       forall i va sa vb sb,
         nth i (var A) None = Some va -> nth i (sum_im A) None = Some sa ->
         nth i (var B) None = Some vb -> nth i (sum_im B) None = Some sb ->
         let d := (sb / Z2Qc (N B) - sa / Z2Qc (N A))%Qc in
         let dP := (sb / Z2Qc (N B)
                    - (sa / Z2Qc (N A) + Z2Qc (N B) * d / Z2Qc (N A + N B)))%Qc in
         nth i (var (merge A B)) None = Some (va + vb + Z2Qc (N B) * d * dP)%Qc /\
         nth i (sum_im (merge A B)) None = Some (sa + sb)%Qc.
Proof.
  intros HA HB delta delta_P. split.
  - unfold merge. assert (E : (N A =? 0) = false) by (apply Z.eqb_neq; lia).
    rewrite E. reflexivity.
  - destruct A as [va sa na], B as [vb sb nb]. cbn [var sum_im N] in *.
    clear delta delta_P. intros n Hva Hsa Hvb Hsb.
    tabulate Hva VA.
    tabulate Hsa SA.
    tabulate Hvb VB.
    tabulate Hsb SB.
    rewrite merge_tab by lia. cbn [var sum_im].
    rewrite !length_tab. split; [reflexivity | split; [reflexivity|]].
    intros i xa xs ya ys Hxa Hxs Hya Hys.
    pose proof (nth_some_lt _ _ _ Hxa) as Hi. rewrite length_tab in Hi.
    rewrite nth_tab in Hxa, Hxs, Hya, Hys by assumption.
    rewrite !nth_tab by assumption.
    rewrite Hxa, Hxs, Hya, Hys. split; [apply evar_fin; lia | reflexivity].
Qed.

Lemma merge_formula_witness :
  0 < N c1_A /\ 0 < N c1_B /\
  merge c1_A c1_B
  = mkVariancePart
      (var c1_A + var c1_B
       + vscale (N c1_B) (vdiv (sum_im c1_B) (N c1_B) - vdiv (sum_im c1_A) (N c1_A))
         * (vdiv (sum_im c1_B) (N c1_B)
            - (vdiv (sum_im c1_A) (N c1_A)
               + vdiv (vscale (N c1_B)
                         (vdiv (sum_im c1_B) (N c1_B) - vdiv (sum_im c1_A) (N c1_A)))
                      (N c1_A + N c1_B))))%arr
      (sum_im c1_A + sum_im c1_B)%arr
      (N c1_A + N c1_B).
Proof.
  assert (HA : 0 < N c1_A) by (cbn; lia).
  assert (HB : 0 < N c1_B) by (cbn; lia).
  split; [exact HA | split; [exact HB |]].
  exact (proj1 (merge_formula c1_A c1_B HA HB)).
Defined.

Example merge_formula_example :
  merge c1_A c1_B = mkVariancePart [int 8; Some (Z2Qc 8 / Z2Qc 3)%Qc] [int 9; int 8] 3.
Proof. apply VariancePart_eq; vm_compute; reflexivity. Qed.

(** ** C2: streaming equals the two-pass variance *)

(** C2. For every non-empty sequence of finite frames streamed as
    single-frame tiles under one region key, starting from zeroed buffers,
    finalization succeeds and the variance it returns is, on every pixel, the
    two-pass population variance of that pixel's samples (the sum of squared
    deviations from the overall mean, divided by the number of frames),
    exactly, over the rationals. *)
Theorem streaming_equals_two_pass {K : Type}
    (K_eq_dec : forall a b : K, {a = b} + {a <> b}) (sqrt_fin : Qc -> elem)
    (key : K) (sig : nat) (rows : list (list Qc)) :
  rows <> [] -> rect sig rows ->
  exists r,
    consolidate_result sqrt_fin
      (stream K_eq_dec key sig rows (fresh sig)) = Return r /\
    out_var r = fin (map (fun i => population_variance (col i rows)) (seq 0 sig)) /\
    out_num_frame r = Z.of_nat (length rows).
Proof.
  intros Hne Hrect.
  pose proof (stream_tracks K_eq_dec key sig rows _ []
                Hrect (tracks_preprocess K_eq_dec key sig)) as Ht.
  cbn [app] in Ht.
  destruct (consolidate_tracks K_eq_dec sqrt_fin key sig _ rows Hne Ht)
    as (r & Hr & Hv & _ & _ & Hn).
  exists r. auto.
Qed.

Lemma streaming_equals_two_pass_witness :
  c2_rows <> [] /\ rect 2 c2_rows /\
  exists r,
    consolidate_result (fun _ => None)
      (stream Nat.eq_dec 7%nat 2 c2_rows (fresh 2)) = Return r /\
    out_var r = fin (map (fun i => population_variance (col i c2_rows)) (seq 0 2)) /\
    out_num_frame r = Z.of_nat (length c2_rows).
Proof.
  assert (H1 : c2_rows <> []) by discriminate.
  assert (H2 : rect 2 c2_rows) by (repeat constructor).
  split; [exact H1 | split; [exact H2 |]].
  exact (streaming_equals_two_pass Nat.eq_dec (fun _ => None) 7%nat 2 c2_rows H1 H2).
Defined.

(** The frames 1, 3 on the first pixel and 2, 6 on the second: variances 1
    and 4. *)
Example streaming_example :
  exists r,
    consolidate_result (fun _ => None)
      (stream Nat.eq_dec 7%nat 2 c2_rows (fresh 2)) = Return r /\
    out_var r = [int 1; int 4] /\ out_mean r = [int 2; int 4] /\
    out_num_frame r = 2.
Proof.
  eexists. split; [reflexivity|].
  repeat split; apply array_eqb_eq; vm_compute; reflexivity.
Qed.

(** ** C3 and C4: the algebra of the merge *)

(** An empty right operand makes every variance element non-finite: the
    mean of the right operand is a division by zero. *)
Lemma evar_empty_right va sa na vb sb : evar va sa na vb sb 0 = None.
Proof.
  unfold evar. rewrite ediv_zero.
  destruct va, vb, (ediv sa na); reflexivity.
Qed.

Lemma merge_empty_right n A B :
  N A <> 0 -> N B = 0 ->
  length (var A) = n -> length (sum_im A) = n ->
  length (var B) = n -> length (sum_im B) = n ->
  var (merge A B) = repeat None n /\ N (merge A B) = N A.
Proof.
  destruct A as [va sa na], B as [vb sb nb]. cbn [var sum_im N].
  intros Ha -> Hva Hsa Hvb Hsb.
  tabulate Hva VA.
  tabulate Hsa SA.
  tabulate Hvb VB.
  tabulate Hsb SB.
  rewrite merge_tab by assumption. cbn [var N]. split; [|lia].
  unfold tab. rewrite <- (length_seq n 0) at 2. rewrite <- map_const.
  apply map_ext. intros i. apply evar_empty_right.
Qed.

(** C3. The merge is not commutative and not associative on all
    accumulators: with an accumulator of two frames on the left and an empty
    accumulator (count 0) on the right every variance element becomes
    non-finite, while the operands swapped give the two-frame accumulator
    back; the same empty operand in the middle of three breaks
    associativity.  (With all counts positive both laws hold:
    [merge_comm_pos], [merge_assoc_pos].) *)
Theorem merge_laws_fail_on_empty_right :
  merge empty_part c1_A = c1_A /\
  merge c1_A empty_part = mkVariancePart [None; None] [int 4; int 6] 2 /\
  merge c1_A empty_part <> merge empty_part c1_A /\
  merge (merge c1_A empty_part) c1_B <> merge c1_A (merge empty_part c1_B).
Proof.
  split; [reflexivity|]. split.
  - apply VariancePart_eq; vm_compute; reflexivity.
  - split; intros H; apply (f_equal var) in H; revert H;
      apply array_eqb_neq; vm_compute; reflexivity.
Qed.

(** C4. The empty accumulator is a left identity of the merge, by the guard
    on [N_A = 0]; it is not a right identity: merging the two-frame
    accumulator with the empty one does not give the two-frame accumulator
    back, its variance elements are non-finite. *)
Theorem merge_empty_right_not_identity :
  merge empty_part c1_B = c1_B /\
  var (merge c1_B empty_part) = [None; None] /\
  N (merge c1_B empty_part) = N c1_B /\
  merge c1_B empty_part <> c1_B.
Proof.
  split; [reflexivity|].
  destruct (merge_empty_right 2 c1_B empty_part) as [Hv Hn];
    try reflexivity; [discriminate|].
  split; [exact Hv | split; [exact Hn |]].
  intros H. rewrite H in Hv. discriminate.
Qed.

(** ** C5: count validation *)

(** C5. [_validate_n] returns 0 on the empty mapping; on a non-empty mapping
    whose values are all equal it returns that common value; and when two
    values differ it raises (the failed assertion, the inconsistent-count
    error) instead of returning a number. *)
Theorem validate_n_spec {K : Type} :
  _validate_n ([] : dict K) = Return 0 /\
  (forall (d : dict K) v,
      d <> [] -> (forall k n, In (k, n) d -> n = v) -> _validate_n d = Return v) /\
  (forall (d : dict K) k1 n1 k2 n2,
      In (k1, n1) d -> In (k2, n2) d -> n1 <> n2 ->
      _validate_n d = Raise AssertionError).
Proof.
  split; [reflexivity|]. split.
  - apply validate_all_equal.
  - apply validate_differ.
Qed.

Lemma validate_n_spec_witness :
  _validate_n ([] : dict nat) = Return 0 /\
  _validate_n [(0%nat, 3); (1%nat, 3)] = Return 3 /\
  _validate_n [(0%nat, 3); (1%nat, 4)] = Raise AssertionError.
Proof.
  destruct (@validate_n_spec nat) as (H0 & Heq & Hne).
  split; [exact H0 | split].
  - apply Heq; [discriminate|].
    intros k n [H|[H|[]]]; congruence.
  - apply (Hne _ 0%nat 3 1%nat 4); [now left | right; now left | lia].
Defined.

(** ** C6: the tile update *)

(** C6. For a tile of [f >= 1] frames and region key [k]: a key not seen
    before gets the count 0 first; the local accumulator has the tile's sum
    over the frame axis as value sum, the raw sum of squared deviations from
    the tile's own mean as variance sum ([np.var] with [ddof = f - 1] divides
    by exactly 1) and [f] as count; the buffers become the pairwise merge of
    the running accumulator of [k] with it; and afterwards the count stored
    for [k] is its previous count plus [f], other keys keeping theirs. *)
Theorem process_tile_update {K : Type}
    (K_eq_dec : forall a b : K, {a = b} + {a <> b})
    (key : K) (tile : Tile) (results : Results K) :
  1 <= shape0 tile ->
  let prev := stored_count K_eq_dec key results in
  let local :=
    mkVariancePart (sum_sq_dev tile) (sum_axis0 (sig_size tile) (frames tile))
      (shape0 tile) in
  let merged :=
    merge (mkVariancePart (res_var results) (res_sum_frame results) prev) local in
  let results' := StdDevUDF.process_tile K_eq_dec key tile results in
  (dict_get K_eq_dec (res_num_frame results) key = None ->
     dict_get K_eq_dec (seen K_eq_dec key (res_num_frame results)) key = Some 0 /\
     prev = 0 /\ merged = local) /\
  np_var tile (shape0 tile - 1) = sum_sq_dev tile /\
  res_var results' = var merged /\
  res_sum_frame results' = sum_im merged /\
  res_num_frame results'
  = dict_set K_eq_dec key (prev + shape0 tile)
      (seen K_eq_dec key (res_num_frame results)) /\
  dict_get K_eq_dec (res_num_frame results') key = Some (prev + shape0 tile) /\
  (forall key', key' <> key ->
     dict_get K_eq_dec (res_num_frame results') key'
     = dict_get K_eq_dec (res_num_frame results) key').
Proof.
  intros _ prev local merged results'.
  assert (Hun := process_tile_unfold K_eq_dec key tile results).
  cbv zeta in Hun. fold results' in Hun.
  split.
  - intros Hnew. subst prev merged.
    rewrite dict_get_seen. unfold stored_count. rewrite Hnew.
    split; [reflexivity | split; [reflexivity |]].
    apply merge_empty_left. reflexivity.
  - split; [apply np_var_ddof|].
    split; [rewrite Hun; reflexivity|].
    split; [rewrite Hun; reflexivity|].
    split; [rewrite Hun; reflexivity|].
    split.
    + rewrite Hun. apply dict_get_set_same.
    + intros key' Hne. subst results'. now apply process_tile_other.
Qed.

Lemma process_tile_update_witness :
  1 <= shape0 c6_tile /\
  res_var (StdDevUDF.process_tile Nat.eq_dec 7%nat c6_tile c6_results)
  = var (merge (mkVariancePart (res_var c6_results) (res_sum_frame c6_results)
                  (stored_count Nat.eq_dec 7%nat c6_results))
               (mkVariancePart (sum_sq_dev c6_tile)
                  (sum_axis0 (sig_size c6_tile) (frames c6_tile))
                  (shape0 c6_tile))) /\
  dict_get Nat.eq_dec
    (res_num_frame (StdDevUDF.process_tile Nat.eq_dec 7%nat c6_tile c6_results))
    7%nat
  = Some (stored_count Nat.eq_dec 7%nat c6_results + shape0 c6_tile).
Proof.
  assert (H : 1 <= shape0 c6_tile) by (cbn; lia).
  destruct (process_tile_update Nat.eq_dec 7%nat c6_tile c6_results H)
    as (_ & _ & Hv & _ & _ & Hc & _).
  split; [exact H | split; [exact Hv | exact Hc]].
Defined.

Example process_tile_example :
  StdDevUDF.process_tile Nat.eq_dec 7%nat c6_tile c6_results
  = mkResults (res_var (StdDevUDF.process_tile Nat.eq_dec 7%nat c6_tile c6_results))
              (res_sum_frame (StdDevUDF.process_tile Nat.eq_dec 7%nat c6_tile c6_results))
              [(7%nat, 4)] /\
  sum_sq_dev c6_tile = [int 2; int 8] /\
  res_var (StdDevUDF.process_tile Nat.eq_dec 7%nat c6_tile c6_results)
  = [int 4; int 11] /\
  res_sum_frame (StdDevUDF.process_tile Nat.eq_dec 7%nat c6_tile c6_results)
  = [int 8; int 14].
Proof.
  split; [reflexivity|].
  repeat split; apply array_eqb_eq; vm_compute; reflexivity.
Qed.

(** ** C7: the partition merge *)

Section PartitionMerge.
Context {K : Type} (K_eq_dec : forall a b : K, {a = b} + {a <> b}).

Lemma udf_merge_unfold (dest src : Results K) N0 N1 :
  _validate_n (res_num_frame dest) = Return N0 ->
  _validate_n (res_num_frame src) = Return N1 ->
  StdDevUDF.merge K_eq_dec dest src
  = let m := merge (mkVariancePart (res_var dest) (res_sum_frame dest) N0)
                   (mkVariancePart (res_var src) (res_sum_frame src) N1) in
    Return (mkResults (var m) (sum_im m)
              (fold_left (fun d key => dict_set K_eq_dec key (N0 + N1) d)
                 (dict_keys (res_num_frame src)) (res_num_frame dest))).
Proof.
  intros H0 H1. unfold StdDevUDF.merge. rewrite H0, H1. cbn [bind].
  cbv zeta. rewrite merge_N. reflexivity.
Qed.

Lemma udf_merge_raises_dest (dest src : Results K) e :
  _validate_n (res_num_frame dest) = Raise e ->
  StdDevUDF.merge K_eq_dec dest src = Raise e.
Proof. intros H. unfold StdDevUDF.merge. now rewrite H. Qed.

Lemma udf_merge_raises_src (dest src : Results K) N0 e :
  _validate_n (res_num_frame dest) = Return N0 ->
  _validate_n (res_num_frame src) = Raise e ->
  StdDevUDF.merge K_eq_dec dest src = Raise e.
Proof. intros H0 H1. unfold StdDevUDF.merge. now rewrite H0, H1. Qed.
End PartitionMerge.

(** C7. When both sides pass the count validation, with counts [N_dest] and
    [N_src], [merge(dest, src)] leaves in [dest] the [var] and [sum_frame]
    arrays of the pairwise merge, sets every region key of [src] to
    [N_dest + N_src], and leaves every region key absent from [src] as it was
    in [dest]: such a key keeps its old count. *)
Theorem udf_merge_effect {K : Type}
    (K_eq_dec : forall a b : K, {a = b} + {a <> b})
    (dest src : Results K) (N_dest N_src : Z) :
  _validate_n (res_num_frame dest) = Return N_dest ->
  _validate_n (res_num_frame src) = Return N_src ->
  exists dest',
    StdDevUDF.merge K_eq_dec dest src = Return dest' /\
    let merged :=
      merge (mkVariancePart (res_var dest) (res_sum_frame dest) N_dest)
            (mkVariancePart (res_var src) (res_sum_frame src) N_src) in
    res_var dest' = var merged /\
    res_sum_frame dest' = sum_im merged /\
    (forall key, In key (dict_keys (res_num_frame src)) ->
       dict_get K_eq_dec (res_num_frame dest') key = Some (N_dest + N_src)) /\
    (forall key, ~ In key (dict_keys (res_num_frame src)) ->
       dict_get K_eq_dec (res_num_frame dest') key
       = dict_get K_eq_dec (res_num_frame dest) key).
Proof.
  intros H0 H1. rewrite (udf_merge_unfold K_eq_dec dest src _ _ H0 H1).
  cbv zeta. eexists. split; [reflexivity|].
  cbn [res_var res_sum_frame res_num_frame]. repeat split.
  - intros key Hin. now apply dict_get_fold_set_in.
  - intros key Hin. now apply dict_get_fold_set_notin.
Qed.

Lemma udf_merge_effect_witness :
  _validate_n (res_num_frame c7_dest) = Return 2 /\
  _validate_n (res_num_frame c7_src) = Return 1 /\
  exists dest',
    StdDevUDF.merge Nat.eq_dec c7_dest c7_src = Return dest' /\
    res_var dest'
    = var (merge (mkVariancePart (res_var c7_dest) (res_sum_frame c7_dest) 2)
                 (mkVariancePart (res_var c7_src) (res_sum_frame c7_src) 1)) /\
    dict_get Nat.eq_dec (res_num_frame dest') 1%nat = Some 3 /\
    dict_get Nat.eq_dec (res_num_frame dest') 2%nat = Some 3 /\
    dict_get Nat.eq_dec (res_num_frame dest') 0%nat = Some 2.
Proof.
  assert (H0 : _validate_n (res_num_frame c7_dest) = Return 2) by reflexivity.
  assert (H1 : _validate_n (res_num_frame c7_src) = Return 1) by reflexivity.
  split; [exact H0 | split; [exact H1 |]].
  destruct (udf_merge_effect Nat.eq_dec c7_dest c7_src 2 1 H0 H1)
    as (dest' & Hm & Hv & _ & Hin & Hout).
  exists dest'. split; [exact Hm | split; [exact Hv |]].
  split; [apply Hin; cbn; tauto |].
  split; [apply Hin; cbn; tauto |].
  rewrite Hout; [reflexivity |].
  cbn. intros [H|[H|[]]]; discriminate.
Defined.

(** ** C8 and C9: finalization *)

Lemma nth_map_none (f : elem -> elem) (a : array) i :
  f None = None -> nth i (map f a) None = f (nth i a None).
Proof.
  intros H. rewrite <- H at 1. apply map_nth.
Qed.

Lemma nth_vdiv (a : array) n i x :
  n <> 0 -> nth i a None = Some x ->
  nth i (vdiv a n) None = Some (x / Z2Qc n)%Qc.
Proof.
  intros Hn Hx. unfold vdiv. rewrite nth_map_none.
  - rewrite Hx. now apply ediv_some.
  - unfold ediv. now destruct (n =? 0).
Qed.

Lemma nth_np_sqrt sqrt_fin (a : array) i :
  nth i (np_sqrt sqrt_fin a) None
  = match nth i a None with Some v => sqrt_fin v | None => None end.
Proof.
  unfold np_sqrt. now rewrite nth_map_none.
Qed.

Lemma vdiv_zero a : vdiv a 0 = repeat None (length a).
Proof.
  unfold vdiv. rewrite <- map_const. apply map_ext. intros x. apply ediv_zero.
Qed.

Lemma np_sqrt_nonfinite sqrt_fin n :
  np_sqrt sqrt_fin (repeat None n) = repeat None n.
Proof.
  unfold np_sqrt. induction n as [|n IH]; [reflexivity|].
  cbn [repeat map]. now rewrite IH.
Qed.

(** C8. For buffers whose region counts are consistent with common count
    [N > 0], finalization returns [variance = variance_sum / N],
    [std = sqrt(variance)], [mean = value_sum / N], the raw value sum as
    [sum_frame] and [num_frame = N]; elementwise, a finite element [x] of the
    variance sum gives the rational [x / N], and its square root as [std]. *)
Theorem consolidate_result_spec {K : Type} (sqrt_fin : Qc -> elem)
    (results : Results K) (n : Z) :
  _validate_n (res_num_frame results) = Return n -> 0 < n ->
  exists r,
    consolidate_result sqrt_fin results = Return r /\
    out_var r = vdiv (res_var results) n /\
    out_std r = np_sqrt sqrt_fin (out_var r) /\
    out_mean r = vdiv (res_sum_frame results) n /\
    out_sum_frame r = res_sum_frame results /\
    out_num_frame r = n /\
    (forall i x, nth i (res_var results) None = Some x ->
       nth i (out_var r) None = Some (x / Z2Qc n)%Qc /\
       nth i (out_std r) None = sqrt_fin (x / Z2Qc n)%Qc) /\
    (forall i x, nth i (res_sum_frame results) None = Some x ->
       nth i (out_mean r) None = Some (x / Z2Qc n)%Qc).
Proof.
  intros Hv Hn. unfold consolidate_result. rewrite Hv. cbn [bind].
  eexists. split; [reflexivity|].
  cbn [out_var out_std out_mean out_sum_frame out_num_frame].
  repeat (split; [reflexivity|]). split.
  - intros i x Hx. rewrite nth_np_sqrt.
    rewrite (nth_vdiv _ n i x) by (assumption || lia). auto.
  - intros i x Hx. apply nth_vdiv; [lia | assumption].
Qed.

Lemma consolidate_result_spec_witness :
  _validate_n (res_num_frame c8_results) = Return 2 /\ 0 < 2 /\
  exists r,
    consolidate_result sqrt_small c8_results = Return r /\
    out_var r = vdiv (res_var c8_results) 2 /\
    out_std r = np_sqrt sqrt_small (out_var r) /\
    out_mean r = vdiv (res_sum_frame c8_results) 2 /\
    out_sum_frame r = res_sum_frame c8_results /\
    out_num_frame r = 2.
Proof.
  assert (H0 : _validate_n (res_num_frame c8_results) = Return 2) by reflexivity.
  assert (H1 : 0 < 2) by lia.
  split; [exact H0 | split; [exact H1 |]].
  destruct (consolidate_result_spec sqrt_small c8_results 2 H0 H1)
    as (r & Hr & Hv & Hs & Hm & Hsf & Hn & _).
  exists r. auto 10.
Defined.

Example consolidate_result_example :
  exists r,
    consolidate_result sqrt_small c8_results = Return r /\
    out_var r = [int 1; int 4] /\ out_std r = [int 1; int 2] /\
    out_mean r = [int 2; int 4] /\ out_sum_frame r = [int 4; int 8] /\
    out_num_frame r = 2.
Proof.
  eexists. split; [reflexivity|].
  repeat split; apply array_eqb_eq; vm_compute; reflexivity.
Qed.

(** C9 as stated fails: finalizing buffers that never saw a frame raises
    nothing; it returns a result with [num_frame = 0]. *)
Lemma consolidate_result_empty_returns :
  _validate_n (res_num_frame (fresh 2 : Results nat)) = Return 0 /\
  consolidate_result sqrt_small (fresh 2 : Results nat)
  = Return (mkConsolidated [None; None] [None; None] [None; None] 0
              [int 0; int 0]) /\
  forall e,
    consolidate_result sqrt_small (fresh 2 : Results nat)
    <> Raise e.
Proof.
  split; [reflexivity|]. split; [reflexivity|]. intros e. discriminate.
Qed.

(** C9, amended. When the validated count is 0 (the mapping is empty, or all
    its counts are 0) finalization raises no error: it divides by 0 and
    returns a result in which every element of the variance, of the standard
    deviation and of the mean is non-finite, with the raw value sum as
    [sum_frame] and [num_frame = 0]. *)
Theorem consolidate_result_no_frames {K : Type} (sqrt_fin : Qc -> elem)
    (results : Results K) :
  _validate_n (res_num_frame results) = Return 0 ->
  consolidate_result sqrt_fin results
  = Return (mkConsolidated
              (repeat None (length (res_var results)))
              (repeat None (length (res_var results)))
              (repeat None (length (res_sum_frame results)))
              0
              (res_sum_frame results)).
Proof.
  intros Hv. unfold consolidate_result. rewrite Hv. cbn [bind].
  now rewrite !vdiv_zero, np_sqrt_nonfinite.
Qed.

Lemma consolidate_result_no_frames_witness :
  _validate_n (res_num_frame (fresh 3 : Results nat)) = Return 0 /\
  consolidate_result sqrt_small (fresh 3 : Results nat)
  = Return (mkConsolidated
              (repeat None (length (res_var (fresh 3 : Results nat))))
              (repeat None (length (res_var (fresh 3 : Results nat))))
              (repeat None
                 (length (res_sum_frame (fresh 3 : Results nat))))
              0
              (res_sum_frame (fresh 3 : Results nat))).
Proof.
  assert (H : _validate_n (res_num_frame (fresh 3 : Results nat))
              = Return 0) by reflexivity.
  split; [exact H |].
  exact (consolidate_result_no_frames sqrt_small (fresh 3) H).
Defined.

(** ** C10: counts and arrays advance together *)

Section CountInvariant.
Context {K : Type} (K_eq_dec : forall a b : K, {a = b} + {a <> b}).

(** X16. A partition merge of buffers holding the frames [h0] with buffers
    holding at least one frame [h1], whatever the region keys on either
    side: it succeeds, the arrays of [dest] then hold [h0 ++ h1], and every
    region key of [src] gets the joint frame count. *)
Lemma udf_merge_describes sig (dest src : Results K) N0 N1 h0 h1 :
  _validate_n (res_num_frame dest) = Return N0 ->
  _validate_n (res_num_frame src) = Return N1 ->
  describes sig (mkVariancePart (res_var dest) (res_sum_frame dest) N0) h0 ->
  describes sig (mkVariancePart (res_var src) (res_sum_frame src) N1) h1 ->
  h1 <> [] ->
  exists dest',
    StdDevUDF.merge K_eq_dec dest src = Return dest' /\
    describes sig
      (mkVariancePart (res_var dest') (res_sum_frame dest') (N0 + N1))
      (h0 ++ h1) /\
    forall key, In key (dict_keys (res_num_frame src)) ->
      dict_get K_eq_dec (res_num_frame dest') key
      = Some (Z.of_nat (length (h0 ++ h1))).
Proof.
  intros Hv0 Hv1 Hd0 Hd1 Hne.
  rewrite (udf_merge_unfold K_eq_dec dest src _ _ Hv0 Hv1). cbv zeta.
  eexists. split; [reflexivity|].
  cbn [res_var res_sum_frame res_num_frame].
  pose proof (merge_describes sig _ _ h0 h1 Hd0 Hd1 Hne) as (Hv & Hs & Hn).
  rewrite merge_N in Hn. cbn [N] in Hn. split.
  - repeat split; assumption.
  - intros key Hin. rewrite <- Hn. now apply dict_get_fold_set_in.
Qed.
End CountInvariant.

(** C10. The invariant is broken by the partition merge when [dest] holds a
    region key that [src] lacks.  With [dest] holding two frames on region 0
    and [src] one frame on region 1, the merge rewrites the arrays on region
    0 (variance sum 2 becomes 14/3) while the count of region 0 stays 2, and
    sets the count of region 1 to 3 although one frame was folded there; the
    counts left in [dest] then fail the count validation. *)
Theorem udf_merge_breaks_count_invariant :
  exists dest',
    StdDevUDF.merge Nat.eq_dec c10_dest c10_src = Return dest' /\
    res_num_frame dest' = [(0%nat, 2); (1%nat, 3)] /\
    res_var dest' = [Some (Z2Qc 14 / Z2Qc 3)%Qc; Some (Z2Qc 50 / Z2Qc 3)%Qc] /\
    res_sum_frame dest' = [int 4; int 5] /\
    nth 0 (res_var dest') None <> nth 0 (res_var c10_dest) None /\
    dict_get Nat.eq_dec (res_num_frame dest') 0%nat
    = dict_get Nat.eq_dec (res_num_frame c10_dest) 0%nat /\
    _validate_n (res_num_frame dest') = Raise AssertionError.
Proof.
  eexists. split; [reflexivity|].
  split; [reflexivity|].
  split; [apply array_eqb_eq; vm_compute; reflexivity|].
  split; [apply array_eqb_eq; vm_compute; reflexivity|].
  split; [|split; reflexivity].
  intros H. assert (E : elem_eqb (nth 0 (res_var c10_dest) None)
                          (nth 0 (res_var c10_dest) None) = true)
    by apply elem_eqb_refl.
  rewrite <- H in E at 1. vm_compute in E. discriminate.
Qed.

(** ** The scenarios of the specification *)

(** Ten frames in one tile: mean 4.5 and variance 8.25 on every pixel. *)
Example scenario_single_tile :
  exists r,
    consolidate_result sqrt_small (worker ten_frames) = Return r /\
    out_mean r = repeat (Some (Z2Qc 9 / Z2Qc 2)%Qc) 16 /\
    out_var r = repeat (Some (Z2Qc 33 / Z2Qc 4)%Qc) 16 /\
    out_num_frame r = 10.
Proof.
  eexists. split; [reflexivity|].
  repeat split; apply array_eqb_eq; vm_compute; reflexivity.
Qed.

(** The same frames in two tiles of five, folded one after the other. *)
Example scenario_two_tiles :
  exists r,
    consolidate_result sqrt_small
      (stream_tiles Nat.eq_dec 0%nat 16
         [firstn 5 ten_frames; skipn 5 ten_frames] (fresh 16)) = Return r /\
    out_mean r = repeat (Some (Z2Qc 9 / Z2Qc 2)%Qc) 16 /\
    out_var r = repeat (Some (Z2Qc 33 / Z2Qc 4)%Qc) 16 /\
    out_num_frame r = 10.
Proof.
  eexists. split; [reflexivity|].
  repeat split; apply array_eqb_eq; vm_compute; reflexivity.
Qed.

(** Five frames on each of two workers, then one partition merge. *)
Example scenario_two_workers :
  exists merged r,
    StdDevUDF.merge Nat.eq_dec (worker (firstn 5 ten_frames))
      (worker (skipn 5 ten_frames)) = Return merged /\
    consolidate_result sqrt_small merged = Return r /\
    out_mean r = repeat (Some (Z2Qc 9 / Z2Qc 2)%Qc) 16 /\
    out_var r = repeat (Some (Z2Qc 33 / Z2Qc 4)%Qc) 16 /\
    out_num_frame r = 10.
Proof.
  eexists. eexists. split; [reflexivity|]. split; [reflexivity|].
  repeat split; apply array_eqb_eq; vm_compute; reflexivity.
Qed.

(** * Further properties of the accumulation *)

(** ** Buffers are determined by the frames they hold *)

Section Histories.
Context {K : Type} (K_eq_dec : forall a b : K, {a = b} + {a <> b}).
Local Open Scope Qc_scope.

Lemma tracks_unique key sig (st st' : Results K) hist :
  tracks K_eq_dec key sig st hist -> tracks K_eq_dec key sig st' hist ->
  st = st'.
Proof.
  intros [(Hv & Hs & _) Hn] [(Hv' & Hs' & _) Hn'].
  destruct st as [v s d], st' as [v' s' d'].
  cbn [running_accumulator var sum_im res_var res_sum_frame res_num_frame] in *.
  congruence.
Qed.

Lemma qsum_perm xs ys : Permutation xs ys -> qsum xs = qsum ys.
Proof.
  induction 1 as [|x xs ys _ IH|x y xs|xs ys zs _ IH1 _ IH2].
  - reflexivity.
  - now rewrite !qsum_cons, IH.
  - rewrite !qsum_cons. ring.
  - now rewrite IH1.
Qed.

Lemma qssd_perm xs ys : Permutation xs ys -> qssd xs = qssd ys.
Proof.
  intros H. unfold qssd, qmean, qlen.
  rewrite (qsum_perm xs ys H), (Permutation_length H).
  apply qsum_perm. now apply Permutation_map.
Qed.

Lemma tracks_perm key sig (st : Results K) h h' :
  Permutation h h' ->
  tracks K_eq_dec key sig st h -> tracks K_eq_dec key sig st h'.
Proof.
  intros Hp [(Hv & Hs & Hn) Hd]. split; [repeat split|].
  - rewrite Hv. apply tab_ext. intros i _. f_equal.
    apply qssd_perm. now apply Permutation_map.
  - rewrite Hs. apply tab_ext. intros i _. f_equal.
    apply qsum_perm. now apply Permutation_map.
  - now rewrite Hn, (Permutation_length Hp).
  - rewrite Hd. destruct h as [|r h], h' as [|r' h'].
    + reflexivity.
    + apply Permutation_nil in Hp. discriminate.
    + apply Permutation_sym, Permutation_nil in Hp. discriminate.
    + now rewrite (Permutation_length Hp).
Qed.

Lemma rect_singletons sig rows :
  rect sig rows ->
  Forall (fun t => rect sig t /\ t <> []) (map (fun r => [r]) rows).
Proof.
  intros H. apply Forall_map. unfold rect in *.
  rewrite Forall_forall in *. intros r Hr. split; [|discriminate].
  constructor; [now apply H | constructor].
Qed.



(** Merging the buffers of [h0] with the buffers of at least one frame
    [h1], both under [key], gives the buffers of [h0 ++ h1]. *)
Lemma udf_merge_tracks key sig (dest src : Results K) h0 h1 :
  tracks K_eq_dec key sig dest h0 -> tracks K_eq_dec key sig src h1 ->
  h1 <> [] ->
  exists dest',
    StdDevUDF.merge K_eq_dec dest src = Return dest' /\
    tracks K_eq_dec key sig dest' (h0 ++ h1).
Proof.
  intros [(Hv0 & Hs0 & _) Hd0] [(Hv1 & Hs1 & _) Hd1] Hne.
  cbn [running_accumulator var sum_im] in *.
  destruct h1 as [|r1 h1]; [congruence|]. set (h := r1 :: h1) in *.
  assert (V1 : _validate_n (res_num_frame src) = Return (Z.of_nat (length h)))
    by (rewrite Hd1; apply validate_singleton).
  assert (V0 : _validate_n (res_num_frame dest) = Return (Z.of_nat (length h0)))
    by (rewrite Hd0; destruct h0; [reflexivity | apply validate_singleton]).
  rewrite (udf_merge_unfold K_eq_dec dest src _ _ V0 V1). cbv zeta.
  eexists. split; [reflexivity|].
  pose proof (merge_describes sig
                (mkVariancePart (res_var dest) (res_sum_frame dest)
                   (Z.of_nat (length h0)))
                (mkVariancePart (res_var src) (res_sum_frame src)
                   (Z.of_nat (length h)))
                h0 h (conj Hv0 (conj Hs0 eq_refl)) (conj Hv1 (conj Hs1 eq_refl))
                Hne) as (Hv & Hs & Hn).
  assert (Hnf : fold_left
                  (fun d key0 => dict_set K_eq_dec key0
                     (Z.of_nat (length h0) + Z.of_nat (length h)) d)
                  (dict_keys (res_num_frame src)) (res_num_frame dest)
                = [(key, Z.of_nat (length (h0 ++ h)))]).
  { rewrite Hd1, Hd0, length_app, Nat2Z.inj_add.
    destruct h0; cbn [dict_keys map fst fold_left dict_set]; [reflexivity|].
    destruct (K_eq_dec key key); [reflexivity | congruence]. }
  split.
  - unfold running_accumulator, stored_count.
    cbn [res_var res_sum_frame res_num_frame]. rewrite Hnf.
    cbn [dict_get]. destruct (K_eq_dec key key); [|congruence].
    repeat split; assumption.
  - cbn [res_num_frame]. rewrite Hnf.
    destruct (h0 ++ h) eqn:E; [|reflexivity].
    apply app_eq_nil in E as [_ E]. subst h. discriminate.
Qed.

Lemma run_tracks key sig r :
  well_fed sig r ->
  exists st,
    run K_eq_dec key sig r = Return st /\
    tracks K_eq_dec key sig st (frames_of r).
Proof.
  induction r as [tiles|d IHd s IHs]; cbn [well_fed run frames_of].
  - intros Hall. eexists. split; [reflexivity|].
    apply (stream_tiles_tracks K_eq_dec key sig tiles (fresh sig) [] Hall).
    apply tracks_preprocess.
  - intros (Hd & Hs & Hne).
    destruct (IHd Hd) as (dest & Ed & Td).
    destruct (IHs Hs) as (src & Es & Ts).
    rewrite Ed, Es. cbn [bind].
    now apply udf_merge_tracks.
Qed.
End Histories.

(** ** Order on the rationals *)

Section Order.
Local Open Scope Qc_scope.

Lemma Q_sq_nonneg (x : Q) : (0 <= x * x)%Q.
Proof.
  destruct (Qlt_le_dec x 0) as [H|H].
  - setoid_replace (x * x)%Q with ((- x) * (- x))%Q by ring.
    assert (0 <= - x)%Q by (apply (Qopp_le_compat x 0), Qlt_le_weak, H).
    now apply Qmult_le_0_compat.
  - now apply Qmult_le_0_compat.
Qed.

Lemma Qc_sq_nonneg (x : Qc) : 0 <= x * x.
Proof.
  unfold Qcle, Qcmult. cbn [this Q2Qc]. rewrite !Qred_correct.
  apply Q_sq_nonneg.
Qed.

Lemma Qc_div_nonneg (x : Qc) n : 0 <= x -> (0 <= n)%Z -> 0 <= x / Z2Qc n.
Proof.
  intros Hx Hn. unfold Qcdiv, Qcle, Qcmult, Qcinv, Z2Qc in *.
  cbn [this Q2Qc] in *. rewrite !Qred_correct.
  apply Qmult_le_0_compat; [exact Hx|].
  apply Qinv_le_0_compat. unfold Qle. cbn. lia.
Qed.

Lemma qsum_nonneg xs : (forall x, In x xs -> 0 <= x) -> 0 <= qsum xs.
Proof.
  induction xs as [|x xs IH]; intros H.
  - apply Qcle_refl.
  - rewrite qsum_cons. replace 0 with (0 + 0) by ring.
    apply Qcplus_le_compat.
    + apply H. now left.
    + apply IH. intros y Hy. apply H. now right.
Qed.

Lemma qssd_nonneg xs : 0 <= qssd xs.
Proof.
  unfold qssd. apply qsum_nonneg. intros y Hy.
  apply in_map_iff in Hy as (x & <- & _). apply Qc_sq_nonneg.
Qed.

Lemma population_variance_nonneg xs : 0 <= population_variance xs.
Proof.
  unfold population_variance, qlen. apply Qc_div_nonneg.
  - apply qssd_nonneg.
  - lia.
Qed.
End Order.

(** ** X1, X2: the merge on positive counts *)

Lemma merge_comm_pos_witness :
  length (var c1_A) = 2%nat /\ 0 < N c1_A /\ 0 < N c1_B /\
  merge c1_A c1_B = merge c1_B c1_A.
Proof.
  assert (HA : 0 < N c1_A) by (cbn; lia).
  assert (HB : 0 < N c1_B) by (cbn; lia).
  split; [reflexivity | split; [exact HA | split; [exact HB |]]].
  exact (merge_comm_pos 2 c1_A c1_B eq_refl eq_refl eq_refl eq_refl HA HB).
Defined.

Lemma merge_assoc_pos_witness :
  0 < N c1_A /\ 0 < N c1_B /\
  merge (merge c1_A c1_B) c1_A = merge c1_A (merge c1_B c1_A).
Proof.
  assert (HA : 0 < N c1_A) by (cbn; lia).
  assert (HB : 0 < N c1_B) by (cbn; lia).
  split; [exact HA | split; [exact HB |]].
  exact (merge_assoc_pos 2 c1_A c1_B c1_A
           eq_refl eq_refl eq_refl eq_refl eq_refl eq_refl HA HB HA).
Defined.

(** ** X3, X4: what the merge holds *)

(** X3. If [A] holds the sums of the finite frames [h1] and [B] those of at
    least one frame [h2], [merge A B] holds those of [h1 ++ h2]: their
    number, the per-pixel sum, the per-pixel sum of squared deviations from
    the joint mean; divided by its count, its variance sum is the two-pass
    population variance of all the frames. *)
Theorem merge_joins_histories sig A B h1 h2 :
  describes sig A h1 -> describes sig B h2 -> h2 <> [] ->
  N (merge A B) = Z.of_nat (length (h1 ++ h2)) /\
  sum_im (merge A B) = fin (map (fun i => qsum (col i (h1 ++ h2))) (seq 0 sig)) /\
  var (merge A B) = fin (map (fun i => qssd (col i (h1 ++ h2))) (seq 0 sig)) /\
  vdiv (var (merge A B)) (N (merge A B))
  = fin (map (fun i => population_variance (col i (h1 ++ h2))) (seq 0 sig)).
Proof.
  intros HA HB Hne.
  destruct (merge_describes sig A B h1 h2 HA HB Hne) as (Hv & Hs & Hn).
  assert (Hpos : Z.of_nat (length (h1 ++ h2)) <> 0).
  { rewrite length_app. destruct h2; [congruence | cbn [length]; lia]. }
  split; [exact Hn|]. rewrite Hs, Hv, Hn.
  split; [unfold fin, tab; now rewrite map_map|].
  split; [unfold fin, tab; now rewrite map_map|].
  rewrite vdiv_fin_tab by assumption. f_equal.
  apply map_ext. intros i. unfold population_variance, qlen.
  now rewrite length_col.
Qed.

Lemma merge_joins_histories_witness :
  describes 2 (local_accumulator (fin_tile 2 rows_A)) rows_A /\
  describes 2 (local_accumulator (fin_tile 2 rows_B)) rows_B /\
  rows_B <> [] /\
  N (merge (local_accumulator (fin_tile 2 rows_A))
           (local_accumulator (fin_tile 2 rows_B)))
  = Z.of_nat (length (rows_A ++ rows_B)).
Proof.
  assert (RA : rect 2 rows_A) by (repeat constructor).
  assert (RB : rect 2 rows_B) by (repeat constructor).
  assert (NA : rows_A <> []) by discriminate.
  assert (NB : rows_B <> []) by discriminate.
  pose proof (local_accumulator_describes 2 rows_A RA NA) as HA.
  pose proof (local_accumulator_describes 2 rows_B RB NB) as HB.
  split; [exact HA | split; [exact HB | split; [exact NB |]]].
  exact (proj1 (merge_joins_histories 2 _ _ rows_A rows_B HA HB NB)).
Defined.

Lemma merge_sum_im p0 p1 :
  N p0 <> 0 -> sum_im (merge p0 p1) = (sum_im p0 + sum_im p1)%arr.
Proof.
  intros H. unfold merge. apply Z.eqb_neq in H. now rewrite H.
Qed.

(** X4. The merge keeps the shape and adds the counts, whatever the counts
    are: over arrays of one length both result arrays have that length, and
    the count of the result is [N_A + N_B], also when the guard on
    [N_A = 0] returns [B]. *)
Theorem merge_keeps_shape n A B :
  length (var A) = n -> length (sum_im A) = n ->
  length (var B) = n -> length (sum_im B) = n ->
  length (var (merge A B)) = n /\ length (sum_im (merge A B)) = n /\
  N (merge A B) = N A + N B.
Proof.
  intros Hva Hsa Hvb Hsb. split; [|split; [|apply merge_N]].
  - destruct (Z.eq_dec (N A) 0) as [E|E].
    + now rewrite merge_empty_left.
    + destruct A as [va sa na], B as [vb sb nb]. cbn [var sum_im N] in *.
      tabulate Hva VA. tabulate Hsa SA. tabulate Hvb VB. tabulate Hsb SB.
      rewrite merge_tab by assumption. apply length_tab.
  - destruct (Z.eq_dec (N A) 0) as [E|E].
    + now rewrite merge_empty_left.
    + destruct A as [va sa na], B as [vb sb nb]. cbn [var sum_im N] in *.
      tabulate Hva VA. tabulate Hsa SA. tabulate Hvb VB. tabulate Hsb SB.
      rewrite merge_tab by assumption. apply length_tab.
Qed.

Lemma merge_keeps_shape_witness :
  length (var empty_part) = 2%nat /\ length (var c1_A) = 2%nat /\
  length (var (merge empty_part c1_A)) = 2%nat /\
  length (var (merge c1_A empty_part)) = 2%nat /\
  N (merge c1_A empty_part) = N c1_A + N empty_part.
Proof.
  split; [reflexivity | split; [reflexivity |]].
  destruct (merge_keeps_shape 2 empty_part c1_A eq_refl eq_refl eq_refl eq_refl)
    as (H1 & _ & _).
  destruct (merge_keeps_shape 2 c1_A empty_part eq_refl eq_refl eq_refl eq_refl)
    as (H2 & _ & H3).
  split; [exact H1 | split; [exact H2 | exact H3]].
Defined.

(** ** X5: when the count validation raises *)

Lemma forallb_false_ex {A : Type} (f : A -> bool) l :
  forallb f l = false -> exists x, In x l /\ f x = false.
Proof.
  induction l as [|x l IH]; cbn [forallb]; [discriminate|].
  destruct (f x) eqn:E; cbn [andb]; intros H.
  - destruct (IH H) as (y & Hy & Hf). exists y. split; [now right | exact Hf].
  - exists x. split; [now left | exact E].
Qed.

Lemma validate_raise_inconsistent {K : Type} (d : dict K) :
  _validate_n d = Raise AssertionError <-> inconsistent d.
Proof.
  split.
  - unfold _validate_n. destruct d as [|[k0 v0] d]; [discriminate|].
    cbn [dict_values map snd].
    destruct (forallb (Z.eqb v0) (v0 :: map snd d)) eqn:E; [discriminate|].
    intros _. apply forallb_false_ex in E as (v & Hin & Hv).
    change (In v (map snd ((k0, v0) :: d))) in Hin.
    apply in_map_iff in Hin as ([k m] & Hm & Hin). cbn [snd] in Hm. subst m.
    exists k0, v0, k, v. split; [now left | split; [exact Hin |]].
    now apply Z.eqb_neq.
  - intros (k1 & n1 & k2 & n2 & H1 & H2 & Hne).
    exact (validate_differ d k1 n1 k2 n2 H1 H2 Hne).
Qed.

(** X5. [_validate_n] raises exactly when two entries of the dictionary
    hold different counts; and when it returns [n], every entry holds [n]:
    a returned count is never a count that some region disagrees with. *)
Theorem validate_n_raises_iff {K : Type} (d : dict K) :
  (_validate_n d = Raise AssertionError <-> inconsistent d) /\
  (forall n, _validate_n d = Return n -> forall k m, In (k, m) d -> m = n) /\
  (~ inconsistent d -> exists n, _validate_n d = Return n).
Proof.
  split; [apply validate_raise_inconsistent|]. split.
  - apply validate_return_inv.
  - intros H. destruct (_validate_n d) as [n|[]] eqn:E.
    + now exists n.
    + exfalso. apply H. now apply validate_raise_inconsistent.
Qed.

Lemma validate_n_raises_iff_witness :
  inconsistent [(0%nat, 3); (1%nat, 4)] /\
  _validate_n [(0%nat, 3); (1%nat, 4)] = Raise AssertionError /\
  (forall k m, In (k, m) [(0%nat, 3); (1%nat, 3)] -> m = 3).
Proof.
  assert (H : inconsistent [(0%nat, 3); (1%nat, 4)]).
  { exists 0%nat, 3, 1%nat, 4. split; [now left | split; [right; now left | lia]]. }
  split; [exact H | split].
  - exact (proj2 (proj1 (validate_n_raises_iff [(0%nat, 3); (1%nat, 4)])) H).
  - exact (proj1 (proj2 (validate_n_raises_iff [(0%nat, 3); (1%nat, 3)]))
             3 eq_refl).
Defined.

(** ** X6: a tile of any size *)

(** X6. A tile of [f >= 1] finite frames of the signal size, folded into
    buffers whose arrays and count for its key hold the frames [hist], leaves
    arrays and count for that key that hold [hist] followed by the tile's
    frames; the counts of the other keys are not touched. *)
Theorem process_tile_advances_history {K : Type}
    (K_eq_dec : forall a b : K, {a = b} + {a <> b})
    (key : K) (sig : nat) (rows : list (list Qc)) (results : Results K)
    (hist : list (list Qc)) :
  rect sig rows -> rows <> [] ->
  describes sig (running_accumulator K_eq_dec key results) hist ->
  let results' := StdDevUDF.process_tile K_eq_dec key (fin_tile sig rows) results in
  describes sig (running_accumulator K_eq_dec key results') (hist ++ rows) /\
  dict_get K_eq_dec (res_num_frame results') key
  = Some (Z.of_nat (length hist) + Z.of_nat (length rows)) /\
  (forall key', key' <> key ->
     dict_get K_eq_dec (res_num_frame results') key'
     = dict_get K_eq_dec (res_num_frame results) key').
Proof.
  intros Hrect Hne Hd results'. split; [|split].
  - now apply process_tile_describes.
  - subst results'. rewrite process_tile_unfold. cbv zeta.
    cbn [res_num_frame]. rewrite dict_get_set_same.
    destruct Hd as (_ & _ & Hn). cbn [running_accumulator N] in Hn.
    rewrite Hn. unfold shape0, fin_tile. cbn [frames].
    now rewrite length_map.
  - intros key' Hk. now apply process_tile_other.
Qed.

Lemma process_tile_advances_history_witness :
  rect 2 c2_rows /\ c2_rows <> [] /\
  describes 2 (running_accumulator Nat.eq_dec 7%nat c6_results) rows_A /\
  describes 2
    (running_accumulator Nat.eq_dec 7%nat
       (StdDevUDF.process_tile Nat.eq_dec 7%nat (fin_tile 2 c2_rows) c6_results))
    (rows_A ++ c2_rows).
Proof.
  assert (R : rect 2 c2_rows) by (repeat constructor).
  assert (NE : c2_rows <> []) by discriminate.
  assert (D : describes 2 (running_accumulator Nat.eq_dec 7%nat c6_results) rows_A).
  { repeat split; apply array_eqb_eq; vm_compute; reflexivity. }
  split; [exact R | split; [exact NE | split; [exact D |]]].
  exact (proj1 (process_tile_advances_history Nat.eq_dec 7%nat 2 c2_rows
                  c6_results rows_A R NE D)).
Defined.

(** ** X7 to X10: any reduction tree *)



(** X8. The order of the frames and the grouping of the merges do not
    matter: two such reductions over the same frames, in any order, any
    tiling and any tree shape, leave the same buffers. *)
Theorem reduction_order_independent {K : Type}
    (K_eq_dec : forall a b : K, {a = b} + {a <> b})
    (key : K) (sig : nat) (r1 r2 : reduction) :
  well_fed sig r1 -> well_fed sig r2 ->
  Permutation (frames_of r1) (frames_of r2) ->
  run K_eq_dec key sig r1 = run K_eq_dec key sig r2.
Proof.
  intros W1 W2 Hp.
  destruct (run_tracks K_eq_dec key sig r1 W1) as (st1 & E1 & T1).
  destruct (run_tracks K_eq_dec key sig r2 W2) as (st2 & E2 & T2).
  rewrite E1, E2. f_equal.
  apply (tracks_unique K_eq_dec key sig _ _ (frames_of r2)); [|exact T2].
  now apply (tracks_perm K_eq_dec key sig st1 (frames_of r1)).
Qed.

Lemma reduction_order_independent_witness :
  well_fed 2 tree_1 /\ well_fed 2 tree_2 /\
  Permutation (frames_of tree_1) (frames_of tree_2) /\
  run Nat.eq_dec 0%nat 2 tree_1 = run Nat.eq_dec 0%nat 2 tree_2.
Proof.
  assert (W1 : well_fed 2 tree_1).
  { cbn. repeat split; try discriminate; repeat constructor; discriminate. }
  assert (W2 : well_fed 2 tree_2).
  { cbn. repeat split; try discriminate; repeat constructor; discriminate. }
  assert (P : Permutation (frames_of tree_1) (frames_of tree_2)).
  { change (Permutation (rows_A ++ rows_B) (rows_B ++ rows_A)).
    apply Permutation_app_comm. }
  split; [exact W1 | split; [exact W2 | split; [exact P |]]].
  exact (reduction_order_independent Nat.eq_dec 0%nat 2 tree_1 tree_2 W1 W2 P).
Defined.

(** X9. Finalizing the buffers of any such reduction over at least one
    frame succeeds and returns, on every pixel, the two-pass population
    variance and the mean of all the frames, their raw sum, and their number. *)
Theorem reduction_result {K : Type}
    (K_eq_dec : forall a b : K, {a = b} + {a <> b}) (sqrt_fin : Qc -> elem)
    (key : K) (sig : nat) (r : reduction) :
  well_fed sig r -> frames_of r <> [] ->
  exists st res,
    run K_eq_dec key sig r = Return st /\
    consolidate_result sqrt_fin st = Return res /\
    out_var res
    = fin (map (fun i => population_variance (col i (frames_of r))) (seq 0 sig)) /\
    out_mean res = fin (map (fun i => qmean (col i (frames_of r))) (seq 0 sig)) /\
    out_sum_frame res = fin (map (fun i => qsum (col i (frames_of r))) (seq 0 sig)) /\
    out_num_frame res = Z.of_nat (length (frames_of r)).
Proof.
  intros Hwf Hne.
  destruct (run_tracks K_eq_dec key sig r Hwf) as (st & Hrun & Ht).
  destruct (consolidate_tracks K_eq_dec sqrt_fin key sig st _ Hne Ht)
    as (res & Hres & Hrest).
  exists st, res. auto.
Qed.

Lemma reduction_result_witness :
  well_fed 2 tree_2 /\ frames_of tree_2 <> [] /\
  exists st res,
    run Nat.eq_dec 0%nat 2 tree_2 = Return st /\
    consolidate_result sqrt_small st = Return res /\
    out_num_frame res = Z.of_nat (length (frames_of tree_2)).
Proof.
  assert (W : well_fed 2 tree_2).
  { cbn. repeat split; try discriminate; repeat constructor; discriminate. }
  assert (NE : frames_of tree_2 <> []) by discriminate.
  split; [exact W | split; [exact NE |]].
  destruct (reduction_result Nat.eq_dec sqrt_small 0%nat 2 tree_2 W NE)
    as (st & res & H1 & H2 & _ & _ & _ & H3).
  exists st, res. auto.
Defined.

(** X10. The variance such a reduction finalizes to is never negative and
    never non-finite: every element is a rational [v >= 0], and the standard
    deviation is the square root of exactly that [v]. *)
Theorem reduction_variance_nonneg {K : Type}
    (K_eq_dec : forall a b : K, {a = b} + {a <> b}) (sqrt_fin : Qc -> elem)
    (key : K) (sig : nat) (r : reduction) :
  well_fed sig r -> frames_of r <> [] ->
  exists st res,
    run K_eq_dec key sig r = Return st /\
    consolidate_result sqrt_fin st = Return res /\
    length (out_var res) = sig /\
    forall i, (i < sig)%nat ->
      exists v, nth i (out_var res) None = Some v /\ (0 <= v)%Qc /\
                nth i (out_std res) None = sqrt_fin v.
Proof.
  intros Hwf Hne.
  destruct (run_tracks K_eq_dec key sig r Hwf) as (st & Hrun & Ht).
  destruct (consolidate_tracks K_eq_dec sqrt_fin key sig st _ Hne Ht)
    as (res & Hres & Hv & _).
  exists st, res. split; [exact Hrun | split; [exact Hres |]].
  assert (Hstd : out_std res = np_sqrt sqrt_fin (out_var res)).
  { unfold consolidate_result in Hres.
    destruct (_validate_n (res_num_frame st)); [|discriminate].
    cbn [bind] in Hres. injection Hres as <-. reflexivity. }
  rewrite Hstd, Hv. split.
  - unfold fin. now rewrite !length_map, length_seq.
  - intros i Hi. exists (population_variance (col i (frames_of r))).
    assert (E : nth i (fin (map (fun i0 => population_variance
                                             (col i0 (frames_of r))) (seq 0 sig)))
                  None
                = Some (population_variance (col i (frames_of r)))).
    { unfold fin. rewrite map_map.
      exact (nth_tab sig (fun i0 => Some (population_variance
                                            (col i0 (frames_of r)))) i Hi). }
    split; [exact E | split; [apply population_variance_nonneg |]].
    rewrite nth_np_sqrt. now rewrite E.
Qed.

Lemma reduction_variance_nonneg_witness :
  well_fed 2 tree_1 /\ frames_of tree_1 <> [] /\
  exists st res,
    run Nat.eq_dec 0%nat 2 tree_1 = Return st /\
    consolidate_result sqrt_small st = Return res /\
    length (out_var res) = 2%nat.
Proof.
  assert (W : well_fed 2 tree_1).
  { cbn. repeat split; try discriminate; repeat constructor; discriminate. }
  assert (NE : frames_of tree_1 <> []) by discriminate.
  split; [exact W | split; [exact NE |]].
  destruct (reduction_variance_nonneg Nat.eq_dec sqrt_small 0%nat 2 tree_1 W NE)
    as (st & res & H1 & H2 & H3 & _).
  exists st, res. auto.
Defined.

(** ** X11 to X13: edges of the partition merge *)

Section MergeEdges.
Context {K : Type} (K_eq_dec : forall a b : K, {a = b} + {a <> b}).

Lemma dict_set_absent k v (d : dict K) :
  ~ In k (dict_keys d) -> dict_set K_eq_dec k v d = d ++ [(k, v)].
Proof.
  induction d as [|[k0 v0] d IH]; cbn [dict_set dict_keys map fst In app].
  - reflexivity.
  - intros H. destruct (K_eq_dec k k0) as [->|Hne].
    + exfalso. apply H. now left.
    + rewrite IH; [reflexivity|]. intros Hin. apply H. now right.
Qed.

Lemma fold_set_absent v keys : forall d : dict K,
  NoDup keys -> (forall k, In k keys -> ~ In k (dict_keys d)) ->
  fold_left (fun d k => dict_set K_eq_dec k v d) keys d
  = d ++ map (fun k => (k, v)) keys.
Proof.
  induction keys as [|k keys IH]; intros d Hnd Hfresh; cbn [fold_left map].
  - now rewrite app_nil_r.
  - inversion Hnd as [|? ? Hk Hnd']; subst.
    rewrite dict_set_absent by (apply Hfresh; now left).
    rewrite IH; [now rewrite <- app_assoc | assumption |].
    intros k' Hin. unfold dict_keys. rewrite map_app, in_app_iff.
    intros [H|[<-|[]]]; [|contradiction].
    apply (Hfresh k'); [now right | exact H].
Qed.

Lemma udf_merge_returns_iff (dest src : Results K) :
  (exists dest', StdDevUDF.merge K_eq_dec dest src = Return dest') <->
  (exists N0 N1, _validate_n (res_num_frame dest) = Return N0 /\
                 _validate_n (res_num_frame src) = Return N1).
Proof.
  unfold StdDevUDF.merge.
  destruct (_validate_n (res_num_frame dest)) as [N0|e0];
    destruct (_validate_n (res_num_frame src)) as [N1|e1]; cbn [bind]; split;
    try (intros (x & H); discriminate);
    try (intros (x & y & H & H'); discriminate).
  - intros _. now exists N0, N1.
  - intros _. eexists. reflexivity.
Qed.
End MergeEdges.

(** X11. Buffers that hold no count are a left identity of the partition
    merge: merging any [src] with consistent counts into them leaves exactly
    [src], arrays and count dictionary. *)
Theorem udf_merge_into_empty {K : Type}
    (K_eq_dec : forall a b : K, {a = b} + {a <> b})
    (dest src : Results K) (N_src : Z) :
  res_num_frame dest = [] ->
  _validate_n (res_num_frame src) = Return N_src ->
  NoDup (dict_keys (res_num_frame src)) ->
  StdDevUDF.merge K_eq_dec dest src = Return src.
Proof.
  intros Hd Hv Hnd.
  assert (V0 : _validate_n (res_num_frame dest) = Return 0) by now rewrite Hd.
  rewrite (udf_merge_unfold K_eq_dec dest src _ _ V0 Hv). cbv zeta.
  rewrite merge_empty_left by reflexivity. cbn [var sum_im].
  rewrite Hd, fold_set_absent; [|assumption | intros k _ []].
  cbn [app]. destruct src as [v s d]. cbn [res_var res_sum_frame res_num_frame] in *.
  do 2 f_equal. unfold dict_keys. rewrite map_map.
  rewrite <- (map_id d) at 2. apply map_ext_in. intros [k m] Hin. cbn [fst].
  now rewrite (validate_return_inv d N_src Hv k m Hin).
Qed.

Lemma udf_merge_into_empty_witness :
  res_num_frame (fresh 2 : Results nat) = [] /\
  _validate_n (res_num_frame c7_src) = Return 1 /\
  NoDup (dict_keys (res_num_frame c7_src)) /\
  StdDevUDF.merge Nat.eq_dec (fresh 2) c7_src = Return c7_src.
Proof.
  assert (H1 : _validate_n (res_num_frame c7_src) = Return 1) by reflexivity.
  assert (H2 : NoDup (dict_keys (res_num_frame c7_src))).
  { cbn. repeat constructor; cbn; intros H; repeat destruct H as [H|H];
      try discriminate; exact H. }
  split; [reflexivity | split; [exact H1 | split; [exact H2 |]]].
  exact (udf_merge_into_empty Nat.eq_dec (fresh 2) c7_src 1 eq_refl H1 H2).
Defined.

(** X12. Merging in a [src] that holds no count, into a [dest] with a count
    other than 0, does not leave [dest] as it was: every element of its
    variance sum becomes non-finite, while its count dictionary stays the
    same and its value sum gets the sum of [src] added. *)
Theorem udf_merge_empty_src {K : Type}
    (K_eq_dec : forall a b : K, {a = b} + {a <> b})
    (n : nat) (dest src : Results K) (N_dest : Z) :
  _validate_n (res_num_frame dest) = Return N_dest -> N_dest <> 0 ->
  res_num_frame src = [] ->
  length (res_var dest) = n -> length (res_sum_frame dest) = n ->
  length (res_var src) = n -> length (res_sum_frame src) = n ->
  StdDevUDF.merge K_eq_dec dest src
  = Return (mkResults (repeat None n)
              (res_sum_frame dest + res_sum_frame src)%arr
              (res_num_frame dest)).
Proof.
  intros Hv Hne Hs L1 L2 L3 L4.
  assert (V1 : _validate_n (res_num_frame src) = Return 0) by now rewrite Hs.
  rewrite (udf_merge_unfold K_eq_dec dest src _ _ Hv V1). cbv zeta.
  rewrite Hs. cbn [dict_keys map fold_left].
  destruct (merge_empty_right n
              (mkVariancePart (res_var dest) (res_sum_frame dest) N_dest)
              (mkVariancePart (res_var src) (res_sum_frame src) 0))
    as [Hvar _]; try assumption; try reflexivity.
  rewrite Hvar, merge_sum_im by assumption. reflexivity.
Qed.

Lemma udf_merge_empty_src_witness :
  _validate_n (res_num_frame c7_dest) = Return 2 /\ 2 <> 0 /\
  StdDevUDF.merge Nat.eq_dec c7_dest (fresh 2)
  = Return (mkResults (repeat None 2)
              (res_sum_frame c7_dest + res_sum_frame (fresh 2 : Results nat))%arr
              (res_num_frame c7_dest)).
Proof.
  assert (H1 : _validate_n (res_num_frame c7_dest) = Return 2) by reflexivity.
  assert (H2 : 2 <> 0) by lia.
  split; [exact H1 | split; [exact H2 |]].
  exact (udf_merge_empty_src Nat.eq_dec 2 c7_dest (fresh 2) 2 H1 H2
           eq_refl eq_refl eq_refl eq_refl eq_refl).
Defined.

(** X13. The partition merge raises exactly when the counts of [dest] or
    the counts of [src] are inconsistent; otherwise it returns buffers. *)
Theorem udf_merge_raises_iff {K : Type}
    (K_eq_dec : forall a b : K, {a = b} + {a <> b}) (dest src : Results K) :
  (StdDevUDF.merge K_eq_dec dest src = Raise AssertionError <->
   inconsistent (res_num_frame dest) \/ inconsistent (res_num_frame src)) /\
  (~ inconsistent (res_num_frame dest) -> ~ inconsistent (res_num_frame src) ->
   exists dest', StdDevUDF.merge K_eq_dec dest src = Return dest').
Proof.
  assert (Hiff : StdDevUDF.merge K_eq_dec dest src = Raise AssertionError <->
                 inconsistent (res_num_frame dest) \/
                 inconsistent (res_num_frame src)).
  { rewrite <- !validate_raise_inconsistent. unfold StdDevUDF.merge.
    destruct (_validate_n (res_num_frame dest)) as [N0|[]];
      destruct (_validate_n (res_num_frame src)) as [N1|[]]; cbn [bind];
      split; intros H; try discriminate; try tauto;
      destruct H; discriminate. }
  split; [exact Hiff|].
  intros H0 H1. apply udf_merge_returns_iff.
  destruct (_validate_n (res_num_frame dest)) as [N0|[]] eqn:E0;
    [|exfalso; apply H0; now apply validate_raise_inconsistent].
  destruct (_validate_n (res_num_frame src)) as [N1|[]] eqn:E1;
    [|exfalso; apply H1; now apply validate_raise_inconsistent].
  now exists N0, N1.
Qed.

Lemma udf_merge_raises_iff_witness :
  inconsistent (res_num_frame (mkResults [int 0] [int 0] [(0%nat, 1); (1%nat, 2)])) /\
  StdDevUDF.merge Nat.eq_dec (fresh 1)
    (mkResults [int 0] [int 0] [(0%nat, 1); (1%nat, 2)])
  = Raise AssertionError.
Proof.
  assert (H : inconsistent
                (res_num_frame (mkResults [int 0] [int 0] [(0%nat, 1); (1%nat, 2)]))).
  { exists 0%nat, 1, 1%nat, 2. cbn. split; [now left | split; [right; now left | lia]]. }
  split; [exact H |].
  exact (proj2 (proj1 (udf_merge_raises_iff Nat.eq_dec (fresh 1)
                         (mkResults [int 0] [int 0] [(0%nat, 1); (1%nat, 2)])))
           (or_intror H)).
Defined.

(** ** X14, X15: finalization *)

(** X14. Finalization raises exactly when two region keys hold different
    counts; with consistent counts it always returns a result. *)
Theorem consolidate_result_raises_iff {K : Type} (sqrt_fin : Qc -> elem)
    (results : Results K) :
  (consolidate_result sqrt_fin results = Raise AssertionError <->
   inconsistent (res_num_frame results)) /\
  (~ inconsistent (res_num_frame results) ->
   exists r, consolidate_result sqrt_fin results = Return r).
Proof.
  assert (Hiff : consolidate_result sqrt_fin results = Raise AssertionError <->
                 inconsistent (res_num_frame results)).
  { rewrite <- validate_raise_inconsistent. unfold consolidate_result.
    destruct (_validate_n (res_num_frame results)) as [n|[]]; cbn [bind];
      split; intros H; try discriminate; reflexivity. }
  split; [exact Hiff|]. intros H. unfold consolidate_result.
  destruct (_validate_n (res_num_frame results)) as [n|[]] eqn:E;
    [|exfalso; apply H; now apply validate_raise_inconsistent].
  cbn [bind]. eexists. reflexivity.
Qed.

Lemma consolidate_result_raises_iff_witness :
  inconsistent (res_num_frame (mkResults [int 2] [int 4] [(0%nat, 2); (1%nat, 3)])) /\
  consolidate_result sqrt_small (mkResults [int 2] [int 4] [(0%nat, 2); (1%nat, 3)])
  = Raise AssertionError.
Proof.
  assert (H : inconsistent
                (res_num_frame (mkResults [int 2] [int 4] [(0%nat, 2); (1%nat, 3)]))).
  { exists 0%nat, 2, 1%nat, 3. cbn. split; [now left | split; [right; now left | lia]]. }
  split; [exact H |].
  exact (proj2 (proj1 (consolidate_result_raises_iff sqrt_small
                         (mkResults [int 2] [int 4] [(0%nat, 2); (1%nat, 3)]))) H).
Defined.




(** ** X16: a partition merge over any region keys *)

Lemma udf_merge_describes_witness :
  _validate_n (res_num_frame c7_dest) = Return 2 /\
  _validate_n (res_num_frame c7_src) = Return 1 /\
  describes 2 (mkVariancePart (res_var c7_dest) (res_sum_frame c7_dest) 2) rows_A /\
  describes 2 (mkVariancePart (res_var c7_src) (res_sum_frame c7_src) 1) rows_B /\
  rows_B <> [] /\
  exists dest',
    StdDevUDF.merge Nat.eq_dec c7_dest c7_src = Return dest' /\
    describes 2 (mkVariancePart (res_var dest') (res_sum_frame dest') (2 + 1))
      (rows_A ++ rows_B).
Proof.
  assert (V0 : _validate_n (res_num_frame c7_dest) = Return 2) by reflexivity.
  assert (V1 : _validate_n (res_num_frame c7_src) = Return 1) by reflexivity.
  assert (D0 : describes 2
                 (mkVariancePart (res_var c7_dest) (res_sum_frame c7_dest) 2) rows_A).
  { repeat split; apply array_eqb_eq; vm_compute; reflexivity. }
  assert (D1 : describes 2
                 (mkVariancePart (res_var c7_src) (res_sum_frame c7_src) 1) rows_B).
  { repeat split; apply array_eqb_eq; vm_compute; reflexivity. }
  assert (NE : rows_B <> []) by discriminate.
  split; [exact V0 | split; [exact V1 | split; [exact D0 | split; [exact D1 |]]]].
  split; [exact NE |].
  destruct (udf_merge_describes Nat.eq_dec 2 c7_dest c7_src 2 1 rows_A rows_B
              V0 V1 D0 D1 NE) as (dest' & Hm & Hd & _).
  exists dest'. split; [exact Hm | exact Hd].
Defined.
